(** * sketch.js: surface locomotion and follow camera

    A shallow embedding of the simulation part of [src/sketch.js]: the
    per-frame functions [handleInput], [updateAlien], [updateAlienPosition]
    (its position copy), [updateCamera], the frame driver [animate], the
    keyboard handlers [keyPressed] and [keyReleased], and the loop of
    [generateStars] over a stream standing for [Math.random].

    JavaScript numbers are modelled as real numbers with exact arithmetic:
    [Math.sin], [Math.cos], [Math.PI], [Math.min] and [Math.max] are [sin],
    [cos], [PI], [Rmin] and [Rmax]; the remainder operator [%] is the
    truncating remainder, whose result takes the sign of the dividend.
    The module-level variables of the script are gathered in one record,
    [World], that every function takes and returns.

    The script itself computes in IEEE doubles.  Statements that compare,
    clamp, count or follow the control flow read the same in doubles.
    Statements about lengths, products and cross products hold in doubles
    only up to rounding: they are stated within [TOLERANCE], and where an
    exact equality fails in the script the failing run is evaluated on
    primitive floats in module [Double]. *)

From Stdlib Require Import Reals Lra Lia ZArith String Ascii List.
From Stdlib Require Floats.PrimFloat.
From stdpp Require Import base gmap strings.

#[local] Open Scope R_scope.

(** ** Numbers *)

(** Truncation toward zero, the rounding used by the remainder operator. *)
Definition Rtrunc (x : R) : Z :=
  if Rle_dec 0 x then Int_part x else (- Int_part (- x))%Z.

(** [x % y] of JavaScript: [x - y * trunc (x / y)]. *)
Definition js_rem (x y : R) : R := x - y * IZR (Rtrunc (x / y)).

(** The test [v === 0]. *)
Definition is_zero (v : R) : bool := if Req_dec_T v 0 then true else false.

(** [v || 1] on a number: 0 is the falsy one. *)
Definition or_one (v : R) : R := if is_zero v then 1 else v.

(** ** THREE.Vector3

    The vector operations the script calls, as three.js defines them:
    [length] is the Euclidean norm, [normalize] is
    [divideScalar (length () || 1)], [divideScalar s] is
    [multiplyScalar (1 / s)] and [setLength l] is
    [normalize().multiplyScalar (l)]. *)
Module Vector3.

Record t : Type := mk { x : R; y : R; z : R }.

Definition set (_ : t) (x' y' z' : R) : t := mk x' y' z'.
Definition clone (v : t) : t := v.
Definition copy (_ v : t) : t := v.
Definition length (v : t) : R := sqrt (x v * x v + y v * y v + z v * z v).
Definition multiplyScalar (v : t) (s : R) : t := mk (x v * s) (y v * s) (z v * s).
Definition divideScalar (v : t) (s : R) : t := multiplyScalar v (1 / s).
Definition normalize (v : t) : t := divideScalar v (or_one (length v)).
Definition setLength (v : t) (l : R) : t := multiplyScalar (normalize v) l.

(** Not called by the script; used to state collinearity. *)
Definition sub (a b : t) : t := mk (x a - x b) (y a - y b) (z a - z b).
Definition add (a b : t) : t := mk (x a + x b) (y a + y b) (z a + z b).
Definition cross (a b : t) : t :=
  mk (y a * z b - z a * y b) (z a * x b - x a * z b) (x a * y b - y a * x b).
Definition zero : t := mk 0 0 0.

End Vector3.

Abbreviation Vector3 := Vector3.t.

(** ** Game constants *)

Definition BLOCK_SIZE : R := 10.
Definition CENTER_AXIS : Vector3 := Vector3.mk 0 0 0.
Definition PLANET_RADIUS : R := 100 * BLOCK_SIZE.
Definition ALIEN_DISTANCE : R := 101 * BLOCK_SIZE.
Definition ANGLE_SPEED : R := 2 / 100.
Definition ZOOM_SPEED : R := 10.
Definition MIN_ZOOM : R := 25.
Definition MAX_ZOOM : R := 500.

(** The literal [0.01] of the polar clamp. *)
Definition POLE_EPS : R := 1 / 100.

(** ** Game state *)

Record Spherical : Type := mkSpherical { theta : R; phi : R }.

Record Alien : Type := mkAlien {
  position : Vector3;
  velocityY : R;
  isJumping : bool;
  onGround : bool;
  spherical : Spherical
}.

(** The camera pose: where it is, and the point last handed to [lookAt]
    ([None] while [lookAt] has not been called).  three.js derives the
    rotation from the position, that point and the fixed up vector. *)
Record Camera : Type := mkCamera {
  cam_position : Vector3;
  cam_lookTarget : option Vector3
}.

Record World : Type := mkWorld {
  alien : Alien;
  keys : gmap string bool;
  cameraDistance : R;
  camera : Camera;
  alienGroup_position : Vector3
}.

(** [keys[k]] used as a condition: a missing key is [undefined], falsy. *)
Definition pressed (ks : gmap string bool) (k : string) : bool :=
  default false (ks !! k).

(** ** handleInput *)

Definition dTheta_of (ks : gmap string bool) : R :=
  let dTheta := 0 in
  let dTheta := if pressed ks "w" then dTheta - ANGLE_SPEED else dTheta in
  let dTheta := if pressed ks "s" then dTheta + ANGLE_SPEED else dTheta in
  dTheta.

Definition dPhi_of (ks : gmap string bool) : R :=
  let dPhi := 0 in
  let dPhi := if pressed ks "a" then dPhi - ANGLE_SPEED else dPhi in
  let dPhi := if pressed ks "d" then dPhi + ANGLE_SPEED else dPhi in
  dPhi.

(** The guard [dTheta !== 0 || dPhi !== 0]. *)
Definition moving (dTheta dPhi : R) : bool :=
  negb (is_zero dTheta) || negb (is_zero dPhi).

(** Lines 170-181: new angles, then the Cartesian position from them. *)
Definition move_alien (a : Alien) (dTheta dPhi : R) : Alien :=
  let theta' :=
    Rmin (Rmax POLE_EPS (theta (spherical a) + dTheta)) (PI - POLE_EPS) in
  let phi' := js_rem (phi (spherical a) + dPhi) (PI * 2) in
  let r := ALIEN_DISTANCE in
  let sinT := sin theta' in
  let x := r * sinT * sin phi' in
  let y := r * cos theta' in
  let z := r * sinT * cos phi' in
  mkAlien (Vector3.set (position a) x y z) (velocityY a) (isJumping a)
          (onGround a) (mkSpherical theta' phi').

(** Lines 184-192: the zoom controls. *)
Definition zoom (ks : gmap string bool) (d : R) : R :=
  let d := if pressed ks "o" then Rmax MIN_ZOOM (d - ZOOM_SPEED) else d in
  let d := if pressed ks "p" then Rmin MAX_ZOOM (d + ZOOM_SPEED) else d in
  d.

Definition handleInput (w : World) : World :=
  let dTheta := dTheta_of (keys w) in
  let dPhi := dPhi_of (keys w) in
  let a := if moving dTheta dPhi then move_alien (alien w) dTheta dPhi
           else alien w in
  mkWorld a (keys w) (zoom (keys w) (cameraDistance w)) (camera w)
          (alienGroup_position w).

(** ** updateAlien *)

Definition with_position (a : Alien) (p : Vector3) : Alien :=
  mkAlien p (velocityY a) (isJumping a) (onGround a) (spherical a).

Definition updateAlien (w : World) : World :=
  if is_zero (Vector3.length (position (alien w))) then w
  else
    mkWorld
      (with_position (alien w)
         (Vector3.setLength (position (alien w)) ALIEN_DISTANCE))
      (keys w) (cameraDistance w) (camera w) (alienGroup_position w).

(** ** updateAlienPosition

    Only the copy of the position into the mesh is kept; the mesh rotation
    is rendering state that nothing below reads. *)
Definition updateAlienPosition (w : World) : World :=
  mkWorld (alien w) (keys w) (cameraDistance w) (camera w)
          (Vector3.copy (alienGroup_position w) (position (alien w))).

(** ** updateCamera

    The debug line added to the scene after [lookAt] is rendering state and
    is left out. *)
Definition updateCamera (w : World) : World :=
  let alienPos := Vector3.clone (position (alien w)) in
  if is_zero (Vector3.length alienPos) then w
  else
    let dir := Vector3.normalize (Vector3.clone alienPos) in
    let camDistFromCenter := ALIEN_DISTANCE + cameraDistance w in
    let camPos := Vector3.multiplyScalar (Vector3.clone dir) camDistFromCenter in
    mkWorld (alien w) (keys w) (cameraDistance w)
            (mkCamera (Vector3.copy (cam_position (camera w)) camPos)
                      (Some alienPos))
            (alienGroup_position w).

(** ** animate: one frame *)

Definition animate (w : World) : World :=
  updateCamera (updateAlienPosition (updateAlien (handleInput w))).

(** ** Keyboard handlers *)

Record KeyboardEvent : Type := mkKeyboardEvent { code : string; key : string }.

(** [toLowerCase] on the ASCII letters; other bytes are kept. *)
Definition lower_ascii (c : ascii) : ascii :=
  let n := nat_of_ascii c in
  if ((65 <=? n)%nat && (n <=? 90)%nat)%bool then ascii_of_nat (n + 32) else c.

Fixpoint toLowerCase (s : string) : string :=
  match s with
  | EmptyString => EmptyString
  | String c r => String (lower_ascii c) (toLowerCase r)
  end.

Definition with_keys (w : World) (ks : gmap string bool) : World :=
  mkWorld (alien w) ks (cameraDistance w) (camera w) (alienGroup_position w).

Definition keyPressed (event : KeyboardEvent) (w : World) : World :=
  if String.eqb (code event) "Space"
  then with_keys w (<[" " := true]> (keys w))
  else with_keys w (<[toLowerCase (key event) := true]> (keys w)).

Definition keyReleased (event : KeyboardEvent) (w : World) : World :=
  if String.eqb (code event) "Space"
  then with_keys w (<[" " := false]> (keys w))
  else with_keys w (<[toLowerCase (key event) := false]> (keys w)).

(** ** The program as a transition system *)

(** The module-level state once [init] has built the scene, before its
    call of [animate]: the alien on top of the planet, no key recorded, a
    fresh camera at the origin. *)
Definition world0 : World :=
  mkWorld
    (mkAlien (Vector3.mk 0 ALIEN_DISTANCE 0) 0 false true (mkSpherical 0 0))
    ∅ 200
    (mkCamera (Vector3.mk 0 0 0) None)
    (Vector3.mk 0 ALIEN_DISTANCE 0).

(** [init] ends by running the first frame. *)
Definition init : World := animate world0.

(** What the browser delivers afterwards: key events and animation frames. *)
Inductive Event : Type :=
| KeyDown (e : KeyboardEvent)
| KeyUp (e : KeyboardEvent)
| Frame.

Definition step (w : World) (ev : Event) : World :=
  match ev with
  | KeyDown e => keyPressed e w
  | KeyUp e => keyReleased e w
  | Frame => animate w
  end.

Definition run (evs : list Event) (w : World) : World := fold_left step evs w.

(** The worlds the running program goes through. *)
Definition reachable (w : World) : Prop := exists evs, w = run evs init.

(** Shorthands used in the statements. *)
Definition theta_of (w : World) : R := theta (spherical (alien w)).
Definition phi_of (w : World) : R := phi (spherical (alien w)).
Definition pos_of (w : World) : Vector3 := position (alien w).

(** [Math.min (Math.max (lo, v), hi)]. *)
Definition clamp (v lo hi : R) : R := Rmin (Rmax lo v) hi.

(** The Cartesian point of the spherical coordinates, as lines 174-180
    compute it. *)
Definition project (r th ph : R) : Vector3 :=
  Vector3.mk (r * sin th * sin ph) (r * cos th) (r * sin th * cos ph).

(** Key events as the browser reports them for the keys the script reads. *)
Definition key_w : KeyboardEvent := mkKeyboardEvent "KeyW" "w".
Definition key_s : KeyboardEvent := mkKeyboardEvent "KeyS" "s".
Definition key_a : KeyboardEvent := mkKeyboardEvent "KeyA" "a".
Definition key_o : KeyboardEvent := mkKeyboardEvent "KeyO" "o".

(** ** Predicates and worlds used in the statements *)

(** The cached position is the projection of the angular pair. *)
Definition in_sync (w : World) : Prop :=
  pos_of w = project ALIEN_DISTANCE (theta_of w) (phi_of w).

(** [s] held down after start-up. *)
Definition world_s : World := keyPressed key_s init.

(** [w] held down after start-up. *)
Definition world_w : World := keyPressed key_w init.

(** [a] held down after start-up. *)
Definition world_a : World := keyPressed key_a init.

(** A world whose alien sits on the center. *)
Definition centered_world : World :=
  mkWorld (mkAlien (Vector3.mk 0 0 0) 0 false true (mkSpherical 0 0))
          ∅ 200 (mkCamera (Vector3.mk 0 0 0) None) (Vector3.mk 0 0 0).

(** Eighteen frames of zoom-in from the start reach [MIN_ZOOM]. *)
Definition zoomed_in_events : list Event := KeyDown key_o :: repeat Frame 18.

(** The band the clamp keeps the polar angle in. *)
Definition in_band (th : R) : Prop := POLE_EPS <= th <= PI - POLE_EPS.

(** The scenario of C8 with [forward] as the key held: the first tick with
    it brings the polar angle from 0 to [POLE_EPS], and after 1000 ticks the
    angle is at [PI - POLE_EPS]. *)
Definition pole_scenario (forward : KeyboardEvent) : Prop :=
  theta_of (run [KeyDown forward; Frame] init) = POLE_EPS /\
  theta_of (run (KeyDown forward :: repeat Frame 1000) init) = PI - POLE_EPS.


(** ** generateStars

    [Math.random] is a stream of numbers read in order: [rnd] gives the
    values and the generator state counts how many were drawn.  Reading an
    array outside its bounds gives [undefined], here [None]. *)
Module Star.
Record t : Type := mk { x : option R; y : option R; z : option R }.
End Star.

Record StarGen : Type := mkStarGen {
  starPositions : list R;
  stars : list Star.t;
  drawn : nat
}.

(** [arr[i]] for an integer index. *)
Definition js_index (arr : list R) (i : Z) : option R :=
  if (i <? 0)%Z then None else arr !! Z.to_nat i.

(** [(Math.random () - 0.5) * 4000]. *)
Definition star_coordinate (rnd : nat -> R) (k : nat) : R :=
  (rnd k - 5 / 10) * 4000.

(** One turn of the loop, lines 95-104. *)
Definition push_star (rnd : nat -> R) (g : StarGen) : StarGen :=
  let k := drawn g in
  let starPositions' :=
    starPositions g ++
      [star_coordinate rnd k; star_coordinate rnd (k + 1);
       star_coordinate rnd (k + 2)] in
  let len := Z.of_nat (length starPositions') in
  let star :=
    Star.mk (js_index starPositions' (len - 3))
            (js_index starPositions' (len - 2))
            (js_index starPositions' (len - 1)) in
  mkStarGen starPositions' (stars g ++ [star]) (k + 3).

Fixpoint star_loop (rnd : nat -> R) (turns : nat) (g : StarGen) : StarGen :=
  match turns with
  | O => g
  | S turns' => star_loop rnd turns' (push_star rnd g)
  end.

(** The loop [for (let i = 0; i < 200; i++)] on the empty [starPositions]
    and the module-level [stars], which is [[]] when [init] runs. *)
Definition generateStars (rnd : nat -> R) : StarGen :=
  star_loop rnd 200 (mkStarGen [] [] 0).

(** What the generator holds after [n] turns from the empty state: the
    first [3 n] draws in order, and one star for every three of them. *)
Definition star_state (rnd : nat -> R) (n : nat) : StarGen :=
  mkStarGen
    (map (star_coordinate rnd) (seq 0 (3 * n)))
    (map (fun j => Star.mk (Some (star_coordinate rnd (3 * j)))
                           (Some (star_coordinate rnd (3 * j + 1)))
                           (Some (star_coordinate rnd (3 * j + 2))))
         (seq 0 n))
    (3 * n).

(** The entry of [keys] that a key event writes. *)
Definition key_name (event : KeyboardEvent) : string :=
  if String.eqb (code event) "Space" then " " else toLowerCase (key event).

(** Worlds and event lists used as further concrete inputs. *)
Definition key_d : KeyboardEvent := mkKeyboardEvent "KeyD" "d".
Definition key_p : KeyboardEvent := mkKeyboardEvent "KeyP" "p".
Definition key_W_shift : KeyboardEvent := mkKeyboardEvent "KeyW" "W".
Definition world_d : World := keyPressed key_d init.
Definition world_o : World := keyPressed key_o init.
Definition world_p : World := keyPressed key_p init.

(** One frame with [s] held, then [s] released: the alien has left the
    pole and no key is held. *)
Definition world_moved : World := run [KeyDown key_s; Frame; KeyUp key_s] init.

(** ** IEEE doubles

    The script computes in IEEE 754 doubles.  Where a statement turns on
    the last bit of a result, the vector operations are evaluated here on
    primitive floats, which are those doubles: the position part of
    [updateAlien] and [updateCamera], and the reprojection of lines 174-180
    from the values [Math.sin] and [Math.cos] return. *)
Module Double.
Import PrimFloat.
#[local] Open Scope float_scope.

(** [v === 0], true of both zeros. *)
Definition is_zero (v : float) : bool := (v =? 0).

(** [v || 1]: zero and NaN are the falsy numbers. *)
Definition or_one (v : float) : float :=
  if (is_zero v || is_nan v)%bool then 1 else v.

Record vec : Type := mk { x : float; y : float; z : float }.

Definition length (v : vec) : float := sqrt (x v * x v + y v * y v + z v * z v).
Definition multiplyScalar (v : vec) (s : float) : vec :=
  mk (x v * s) (y v * s) (z v * s).
Definition divideScalar (v : vec) (s : float) : vec := multiplyScalar v (1 / s).
Definition normalize (v : vec) : vec := divideScalar v (or_one (length v)).
Definition setLength (v : vec) (l : float) : vec := multiplyScalar (normalize v) l.
Definition cross (a b : vec) : vec :=
  mk (y a * z b - z a * y b) (z a * x b - x a * z b) (x a * y b - y a * x b).

Definition BLOCK_SIZE : float := 10.
Definition ALIEN_DISTANCE : float := 101 * BLOCK_SIZE.

(** Lines 174-181, from the results of [Math.sin (theta)], [Math.cos (theta)],
    [Math.sin (phi)] and [Math.cos (phi)]. *)
Definition project (sinT cosT sinP cosP : float) : vec :=
  let r := ALIEN_DISTANCE in
  mk (r * sinT * sinP) (r * cosT) (r * sinT * cosP).

(** What [updateAlien] leaves in [alien.position]. *)
Definition updateAlien (position : vec) : vec :=
  if is_zero (length position) then position
  else setLength position ALIEN_DISTANCE.

(** What [updateCamera] leaves in [camera.position]. *)
Definition updateCamera (position : vec) (cameraDistance : float)
    (camera_position : vec) : vec :=
  if is_zero (length position) then camera_position
  else multiplyScalar (normalize position) (ALIEN_DISTANCE + cameraDistance).

(** [Math.sin] and [Math.cos] at the polar angles of the runs below: the
    doubles nearest to the sine and the cosine of the doubles 0.02,
    0.03 (which is 0.01 + 0.02) and 0.04 (which is 0.02 + 0.02).
    In decimal: 0.01999866669333308 and 0.9998000066665778,
    0.02999550020249566 and 0.9995500337489875,
    0.03998933418663416 and 0.9992001066609779. *)
Definition sin_0_02 : float := 0x1.47a87cda55867p-6.
Definition cos_0_02 : float := 0x1.ffe5c95658d96p-1.
Definition sin_0_04 : float := 0x1.4797b650a72fbp-5.
Definition cos_0_04 : float := 0x1.ff97280889878p-1.

(** The position [handleInput] stores on the first frame with [s] held
    from the start: theta is 0 + 0.02, phi is 0 % (2π) = 0, whose sine is 0
    and cosine 1. *)
Definition pos_s1 : vec := project sin_0_02 cos_0_02 0 1.

(** The same on the second frame with [s] held: theta is 0.04. *)
Definition pos_s2 : vec := project sin_0_04 cos_0_04 0 1.


End Double.

(** ** Tolerance, and further predicates and worlds *)



(** A run all of whose frames find the guard of [handleInput] false. *)
Fixpoint idle_run (evs : list Event) (w : World) : Prop :=
  match evs with
  | [] => True
  | ev :: evs' =>
      (ev = Frame -> moving (dTheta_of (keys w)) (dPhi_of (keys w)) = false) /\
      idle_run evs' (step w ev)
  end.

(** Two frames with [s] held, then [s] released: no key is held. *)
Definition world_drifted : World :=
  run [KeyDown key_s; Frame; Frame; KeyUp key_s] init.

(** Two frames with [o] held, [w] during the first and [s] during the
    second. *)
Definition world_ws : World :=
  run [KeyDown key_o; KeyDown key_w; Frame; KeyUp key_w; KeyDown key_s; Frame] init.

(** * Properties *)

(** ** Numbers *)

Lemma PI_gt_3 : 3 < PI.
Proof. pose proof PI2_3_2. lra. Qed.

Lemma Rtrunc_small (x : R) : -1 < x < 1 -> Rtrunc x = 0%Z.
Proof.
  intros [Hlo Hhi]. unfold Rtrunc.
  destruct (Rle_dec 0 x) as [Hx | Hx].
  - symmetry. apply Int_part_spec. simpl. lra.
  - assert (Int_part (- x) = 0%Z) as ->; [|reflexivity].
    symmetry. apply Int_part_spec. simpl. lra.
Qed.

Lemma Rtrunc_bounds (x : R) :
  (0 <= x -> IZR (Rtrunc x) <= x < IZR (Rtrunc x) + 1) /\
  (x <= 0 -> IZR (Rtrunc x) - 1 < x <= IZR (Rtrunc x)).
Proof.
  unfold Rtrunc. destruct (Rle_dec 0 x) as [Hx | Hx].
  - destruct (base_Int_part x) as [H1 H2]. split; intros; [lra|].
    assert (x = 0) as -> by lra.
    assert (Int_part 0 = 0%Z) as -> by (symmetry; apply Int_part_spec; simpl; lra).
    simpl. lra.
  - destruct (base_Int_part (- x)) as [H1 H2].
    rewrite opp_IZR. split; intros; lra.
Qed.

Lemma js_rem_small (x y : R) : 0 < y -> - y < x < y -> js_rem x y = x.
Proof.
  intros Hy [Hlo Hhi]. unfold js_rem.
  rewrite Rtrunc_small; [lra|].
  split.
  - apply (Rmult_lt_reg_r y); [lra|]. unfold Rdiv.
    rewrite Rmult_assoc, Rinv_l; lra.
  - apply (Rmult_lt_reg_r y); [lra|]. unfold Rdiv.
    rewrite Rmult_assoc, Rinv_l; lra.
Qed.

(** The remainder keeps the sign of the dividend and is smaller than the
    divisor in magnitude. *)
Lemma js_rem_range (x y : R) :
  0 < y ->
  (0 <= x -> 0 <= js_rem x y < y) /\ (x <= 0 -> - y < js_rem x y <= 0).
Proof.
  intros Hy. unfold js_rem.
  destruct (Rtrunc_bounds (x / y)) as [Hp Hn].
  assert (Hxy : x = x / y * y) by (field; lra).
  set (q := x / y) in *. set (t := IZR (Rtrunc q)) in *.
  split; intros Hx.
  - assert (0 <= q).
    { unfold q, Rdiv. apply Rmult_le_pos; [lra|]. left. now apply Rinv_0_lt_compat. }
    specialize (Hp ltac:(assumption)). nra.
  - assert (q <= 0).
    { unfold q, Rdiv. rewrite <- (Rmult_0_l (/ y)).
      apply Rmult_le_compat_r; [|lra]. left. now apply Rinv_0_lt_compat. }
    specialize (Hn ltac:(assumption)). nra.
Qed.

Lemma clamp_bounds (v lo hi : R) : lo <= hi -> lo <= clamp v lo hi <= hi.
Proof.
  intros H. unfold clamp, Rmin, Rmax.
  repeat destruct Rle_dec; lra.
Qed.

Lemma is_zero_true (v : R) : is_zero v = true <-> v = 0.
Proof. unfold is_zero. destruct Req_dec_T; split; congruence. Qed.

Lemma is_zero_false (v : R) : is_zero v = false <-> v <> 0.
Proof. unfold is_zero. destruct Req_dec_T; split; congruence. Qed.

Lemma eps_lt_top : POLE_EPS < PI - POLE_EPS.
Proof. pose proof PI_gt_3. unfold POLE_EPS. lra. Qed.

(** ** Vectors *)

Section VectorFacts.

Import Vector3.

Lemma length_nonneg (v : Vector3) : 0 <= length v.
Proof. apply sqrt_pos. Qed.

Lemma norm2_nonneg (v : Vector3) : 0 <= x v * x v + y v * y v + z v * z v.
Proof. nra. Qed.

Lemma length_zero_iff (v : Vector3) : length v = 0 <-> v = zero.
Proof.
  split.
  - intros H. apply sqrt_eq_0 in H; [|apply norm2_nonneg].
    destruct v as [a b c]; simpl in *. unfold zero.
    assert (a = 0) by nra. assert (b = 0) by nra. assert (c = 0) by nra.
    congruence.
  - intros ->. unfold length, zero; simpl.
    replace (0 * 0 + 0 * 0 + 0 * 0) with 0 by ring. apply sqrt_0.
Qed.

Lemma length_multiplyScalar (v : Vector3) (s : R) :
  length (multiplyScalar v s) = Rabs s * length v.
Proof.
  unfold length, multiplyScalar; simpl.
  replace (x v * s * (x v * s) + y v * s * (y v * s) + z v * s * (z v * s))
    with (Rsqr s * (x v * x v + y v * y v + z v * z v))
    by (unfold Rsqr; ring).
  rewrite sqrt_mult; [|apply Rle_0_sqr|apply norm2_nonneg].
  now rewrite sqrt_Rsqr_abs.
Qed.

Lemma length_normalize (v : Vector3) : length v <> 0 -> length (normalize v) = 1.
Proof.
  intros Hv. unfold normalize, divideScalar, or_one.
  apply is_zero_false in Hv as Hz. rewrite Hz.
  rewrite length_multiplyScalar.
  pose proof (length_nonneg v) as Hn.
  assert (Hpos : 0 < 1 / length v).
  { apply Rdiv_lt_0_compat; lra. }
  rewrite Rabs_right by lra. field. exact Hv.
Qed.

Lemma length_setLength (v : Vector3) (l : R) :
  length v <> 0 -> length (setLength v l) = Rabs l.
Proof.
  intros Hv. unfold setLength.
  rewrite length_multiplyScalar, length_normalize by exact Hv. ring.
Qed.

(** Rescaling a vector to the length it already has changes nothing. *)
Lemma setLength_same (v : Vector3) : length v <> 0 -> setLength v (length v) = v.
Proof.
  intros Hv. apply is_zero_false in Hv as Hz.
  unfold setLength, normalize, divideScalar, multiplyScalar, or_one.
  rewrite Hz. destruct v as [a b c]; simpl.
  set (l := length (mk a b c)) in *.
  f_equal; field; exact Hv.
Qed.

Lemma length_project (r th ph : R) : length (project r th ph) = Rabs r.
Proof.
  unfold length, project; simpl.
  pose proof (sin2_cos2 th) as Ht. pose proof (sin2_cos2 ph) as Hp.
  unfold Rsqr in Ht, Hp.
  replace (r * sin th * sin ph * (r * sin th * sin ph)
           + r * cos th * (r * cos th)
           + r * sin th * cos ph * (r * sin th * cos ph))
    with (Rsqr r * (sin th * sin th * (sin ph * sin ph + cos ph * cos ph)
                    + cos th * cos th))
    by (unfold Rsqr; ring).
  rewrite Hp, Rmult_1_r, Ht, Rmult_1_r.
  apply sqrt_Rsqr_abs.
Qed.

Lemma sub_zero (v : Vector3) : sub v (mk 0 0 0) = v.
Proof. destruct v; unfold sub; simpl. f_equal; ring. Qed.

Lemma add_zero (v : Vector3) : add v (mk 0 0 0) = v.
Proof. destruct v; unfold add; simpl. f_equal; ring. Qed.

End VectorFacts.

(** ** What each function touches *)

Lemma alien_handleInput (w : World) :
  alien (handleInput w) =
  if moving (dTheta_of (keys w)) (dPhi_of (keys w))
  then move_alien (alien w) (dTheta_of (keys w)) (dPhi_of (keys w))
  else alien w.
Proof. reflexivity. Qed.

Lemma theta_handleInput_moving (w : World) :
  moving (dTheta_of (keys w)) (dPhi_of (keys w)) = true ->
  theta_of (handleInput w) =
  clamp (theta_of w + dTheta_of (keys w)) POLE_EPS (PI - POLE_EPS).
Proof. intros H. unfold theta_of. rewrite alien_handleInput, H. reflexivity. Qed.

Lemma phi_handleInput_moving (w : World) :
  moving (dTheta_of (keys w)) (dPhi_of (keys w)) = true ->
  phi_of (handleInput w) = js_rem (phi_of w + dPhi_of (keys w)) (PI * 2).
Proof. intros H. unfold phi_of. rewrite alien_handleInput, H. reflexivity. Qed.

Lemma pos_handleInput_moving (w : World) :
  moving (dTheta_of (keys w)) (dPhi_of (keys w)) = true ->
  pos_of (handleInput w) =
  project ALIEN_DISTANCE (theta_of (handleInput w)) (phi_of (handleInput w)).
Proof.
  intros H. unfold pos_of, theta_of, phi_of.
  rewrite alien_handleInput, H. reflexivity.
Qed.

Lemma alien_handleInput_idle (w : World) :
  moving (dTheta_of (keys w)) (dPhi_of (keys w)) = false ->
  alien (handleInput w) = alien w.
Proof. intros H. rewrite alien_handleInput, H. reflexivity. Qed.

Lemma spherical_updateAlien (w : World) :
  spherical (alien (updateAlien w)) = spherical (alien w).
Proof. unfold updateAlien. now destruct is_zero. Qed.

Lemma keys_updateAlien (w : World) : keys (updateAlien w) = keys w.
Proof. unfold updateAlien. now destruct is_zero. Qed.

Lemma cameraDistance_updateAlien (w : World) :
  cameraDistance (updateAlien w) = cameraDistance w.
Proof. unfold updateAlien. now destruct is_zero. Qed.

Lemma camera_updateAlien (w : World) : camera (updateAlien w) = camera w.
Proof. unfold updateAlien. now destruct is_zero. Qed.



Lemma alien_updateAlienPosition (w : World) :
  alien (updateAlienPosition w) = alien w.
Proof. reflexivity. Qed.

Lemma keys_updateAlienPosition (w : World) :
  keys (updateAlienPosition w) = keys w.
Proof. reflexivity. Qed.

Lemma cameraDistance_updateAlienPosition (w : World) :
  cameraDistance (updateAlienPosition w) = cameraDistance w.
Proof. reflexivity. Qed.

Lemma camera_updateAlienPosition (w : World) :
  camera (updateAlienPosition w) = camera w.
Proof. reflexivity. Qed.

Lemma alien_updateCamera (w : World) : alien (updateCamera w) = alien w.
Proof. unfold updateCamera, Vector3.clone. now destruct is_zero. Qed.

Lemma keys_updateCamera (w : World) : keys (updateCamera w) = keys w.
Proof. unfold updateCamera, Vector3.clone. now destruct is_zero. Qed.

Lemma cameraDistance_updateCamera (w : World) :
  cameraDistance (updateCamera w) = cameraDistance w.
Proof. unfold updateCamera, Vector3.clone. now destruct is_zero. Qed.


Lemma updateCamera_zero (w : World) :
  Vector3.length (pos_of w) = 0 -> updateCamera w = w.
Proof.
  intros H. apply is_zero_true in H. unfold pos_of in *.
  unfold updateCamera, Vector3.clone. now rewrite H.
Qed.

Lemma alien_animate (w : World) :
  alien (animate w) = alien (updateAlien (handleInput w)).
Proof. unfold animate. now rewrite alien_updateCamera, alien_updateAlienPosition. Qed.

Lemma keys_animate (w : World) : keys (animate w) = keys w.
Proof.
  unfold animate.
  now rewrite keys_updateCamera, keys_updateAlienPosition, keys_updateAlien.
Qed.

Lemma cameraDistance_animate (w : World) :
  cameraDistance (animate w) = zoom (keys w) (cameraDistance w).
Proof.
  unfold animate.
  now rewrite cameraDistance_updateCamera, cameraDistance_updateAlienPosition,
    cameraDistance_updateAlien.
Qed.

Lemma theta_animate (w : World) : theta_of (animate w) = theta_of (handleInput w).
Proof. unfold theta_of. now rewrite alien_animate, spherical_updateAlien. Qed.

Lemma phi_animate (w : World) : phi_of (animate w) = phi_of (handleInput w).
Proof. unfold phi_of. now rewrite alien_animate, spherical_updateAlien. Qed.

Lemma pos_animate (w : World) :
  pos_of (animate w) = pos_of (updateAlien (handleInput w)).
Proof. unfold pos_of. now rewrite alien_animate. Qed.


Lemma run_app (evs1 evs2 : list Event) (w : World) :
  run (evs1 ++ evs2) w = run evs2 (run evs1 w).
Proof. apply fold_left_app. Qed.

Lemma run_snoc (evs : list Event) (ev : Event) (w : World) :
  run (evs ++ [ev]) w = step (run evs w) ev.
Proof. now rewrite run_app. Qed.

Lemma reachable_init : reachable init.
Proof. now exists []. Qed.

Lemma reachable_step (w : World) (ev : Event) :
  reachable w -> reachable (step w ev).
Proof. intros [evs ->]. exists (evs ++ [ev]). now rewrite run_snoc. Qed.

Lemma reachable_run (evs : list Event) (w : World) :
  reachable w -> reachable (run evs w).
Proof.
  revert w. induction evs as [|ev evs IH]; intros w Hw; [exact Hw|].
  simpl. apply IH. now apply reachable_step.
Qed.

(** Induction over the worlds the program goes through. *)
Lemma reachable_ind (P : World -> Prop) :
  P init ->
  (forall w ev, reachable w -> P w -> P (step w ev)) ->
  forall w, reachable w -> P w.
Proof.
  intros Hinit Hstep w [evs ->].
  induction evs as [|ev evs IH] using rev_ind; [exact Hinit|].
  rewrite run_snoc. apply Hstep; [now exists evs | exact IH].
Qed.

Lemma alien_keyPressed (e : KeyboardEvent) (w : World) :
  alien (keyPressed e w) = alien w.
Proof. unfold keyPressed. now destruct String.eqb. Qed.

Lemma alien_keyReleased (e : KeyboardEvent) (w : World) :
  alien (keyReleased e w) = alien w.
Proof. unfold keyReleased. now destruct String.eqb. Qed.

Lemma cameraDistance_keyPressed (e : KeyboardEvent) (w : World) :
  cameraDistance (keyPressed e w) = cameraDistance w.
Proof. unfold keyPressed. now destruct String.eqb. Qed.

Lemma cameraDistance_keyReleased (e : KeyboardEvent) (w : World) :
  cameraDistance (keyReleased e w) = cameraDistance w.
Proof. unfold keyReleased. now destruct String.eqb. Qed.

Lemma camera_keyPressed (e : KeyboardEvent) (w : World) :
  camera (keyPressed e w) = camera w.
Proof. unfold keyPressed. now destruct String.eqb. Qed.

Lemma camera_keyReleased (e : KeyboardEvent) (w : World) :
  camera (keyReleased e w) = camera w.
Proof. unfold keyReleased. now destruct String.eqb. Qed.

(** ** Keys and deltas *)

Lemma pressed_empty (k : string) : pressed ∅ k = false.
Proof. unfold pressed. now rewrite lookup_empty. Qed.

Lemma is_zero_0 : is_zero 0 = true.
Proof. now apply is_zero_true. Qed.

Lemma angle_speed_pos : 0 < ANGLE_SPEED.
Proof. unfold ANGLE_SPEED. lra. Qed.

Lemma alien_distance_pos : 0 < ALIEN_DISTANCE.
Proof. unfold ALIEN_DISTANCE, BLOCK_SIZE. lra. Qed.

(** The polar delta is one of three values. *)
Lemma dTheta_cases (ks : gmap string bool) :
  dTheta_of ks = 0 \/ dTheta_of ks = ANGLE_SPEED \/ dTheta_of ks = - ANGLE_SPEED.
Proof.
  unfold dTheta_of. destruct (pressed ks "w"), (pressed ks "s"); lra.
Qed.

Lemma dPhi_cases (ks : gmap string bool) :
  dPhi_of ks = 0 \/ dPhi_of ks = ANGLE_SPEED \/ dPhi_of ks = - ANGLE_SPEED.
Proof.
  unfold dPhi_of. destruct (pressed ks "a"), (pressed ks "d"); lra.
Qed.

Lemma moving_idle (ks : gmap string bool) :
  dTheta_of ks = 0 -> dPhi_of ks = 0 -> moving (dTheta_of ks) (dPhi_of ks) = false.
Proof. intros -> ->. unfold moving. now rewrite is_zero_0. Qed.

Lemma moving_dTheta (dTheta dPhi : R) : dTheta <> 0 -> moving dTheta dPhi = true.
Proof. intros H. apply is_zero_false in H. unfold moving. now rewrite H. Qed.

Lemma moving_dPhi (dTheta dPhi : R) : dPhi <> 0 -> moving dTheta dPhi = true.
Proof.
  intros H. apply is_zero_false in H. unfold moving. rewrite H.
  now destruct (is_zero dTheta).
Qed.

(** ** The alien stays on its sphere *)

Lemma in_sync_length (w : World) :
  in_sync w -> Vector3.length (pos_of w) = ALIEN_DISTANCE.
Proof.
  intros ->. rewrite length_project. apply Rabs_right.
  pose proof alien_distance_pos. lra.
Qed.

Lemma in_sync_handleInput (w : World) : in_sync w -> in_sync (handleInput w).
Proof.
  intros Hw. unfold in_sync.
  destruct (moving (dTheta_of (keys w)) (dPhi_of (keys w))) eqn:Hm.
  - now apply pos_handleInput_moving.
  - unfold pos_of, theta_of, phi_of. rewrite alien_handleInput_idle by exact Hm.
    exact Hw.
Qed.

Lemma updateAlien_in_sync (w : World) : in_sync w -> updateAlien w = w.
Proof.
  intros Hw. pose proof (in_sync_length w Hw) as Hl.
  pose proof alien_distance_pos as Hp.
  assert (Hnz : Vector3.length (pos_of w) <> 0) by lra.
  apply is_zero_false in Hnz as Hz. unfold pos_of in *. unfold updateAlien.
  rewrite Hz, <- Hl, setLength_same by (rewrite Hl; lra).
  destruct w as [[]]; reflexivity.
Qed.

Lemma in_sync_animate (w : World) : in_sync w -> in_sync (animate w).
Proof.
  intros Hw. apply in_sync_handleInput in Hw.
  unfold in_sync. rewrite pos_animate, theta_animate, phi_animate.
  now rewrite updateAlien_in_sync.
Qed.

Lemma in_sync_world0 : in_sync world0.
Proof.
  unfold in_sync, world0, pos_of, theta_of, phi_of, project; simpl.
  rewrite sin_0, cos_0. f_equal; ring.
Qed.

Lemma reachable_in_sync (w : World) : reachable w -> in_sync w.
Proof.
  revert w. apply reachable_ind.
  - apply in_sync_animate, in_sync_world0.
  - intros w [e | e |] _ Hw; simpl.
    + unfold in_sync, pos_of, theta_of, phi_of. now rewrite alien_keyPressed.
    + unfold in_sync, pos_of, theta_of, phi_of. now rewrite alien_keyReleased.
    + now apply in_sync_animate.
Qed.

Lemma keys_init : keys init = ∅.
Proof. unfold init. now rewrite keys_animate. Qed.

Lemma pressed_insert (ks : gmap string bool) (k k' : string) (b : bool) :
  pressed (<[k := b]> ks) k' = if decide (k = k') then b else pressed ks k'.
Proof.
  unfold pressed. rewrite lookup_insert. now destruct (decide (k = k')).
Qed.

Lemma deltas_idle : dTheta_of ∅ = 0 /\ dPhi_of ∅ = 0.
Proof. unfold dTheta_of, dPhi_of. now rewrite !pressed_empty. Qed.

Lemma moving_empty : moving (dTheta_of ∅) (dPhi_of ∅) = false.
Proof. destruct deltas_idle. now apply moving_idle. Qed.

Lemma keys_world_s : keys world_s = <["s" := true]> ∅.
Proof. unfold world_s, keyPressed; simpl. now rewrite keys_init. Qed.

Lemma keys_world_w : keys world_w = <["w" := true]> ∅.
Proof. unfold world_w, keyPressed; simpl. now rewrite keys_init. Qed.

Lemma keys_world_a : keys world_a = <["a" := true]> ∅.
Proof. unfold world_a, keyPressed; simpl. now rewrite keys_init. Qed.

Lemma deltas_s : dTheta_of (<["s" := true]> ∅) = ANGLE_SPEED /\
                 dPhi_of (<["s" := true]> ∅) = 0.
Proof.
  unfold dTheta_of, dPhi_of. rewrite !pressed_insert, !pressed_empty; simpl.
  split; ring.
Qed.

Lemma deltas_w : dTheta_of (<["w" := true]> ∅) = - ANGLE_SPEED /\
                 dPhi_of (<["w" := true]> ∅) = 0.
Proof.
  unfold dTheta_of, dPhi_of. rewrite !pressed_insert, !pressed_empty; simpl.
  split; ring.
Qed.

Lemma deltas_a : dTheta_of (<["a" := true]> ∅) = 0 /\
                 dPhi_of (<["a" := true]> ∅) = - ANGLE_SPEED.
Proof.
  unfold dTheta_of, dPhi_of. rewrite !pressed_insert, !pressed_empty; simpl.
  split; ring.
Qed.

Lemma moving_world_s : moving (dTheta_of (keys world_s)) (dPhi_of (keys world_s)) = true.
Proof.
  rewrite keys_world_s. destruct deltas_s as [-> _].
  apply moving_dTheta. pose proof angle_speed_pos. lra.
Qed.

Lemma moving_world_w : moving (dTheta_of (keys world_w)) (dPhi_of (keys world_w)) = true.
Proof.
  rewrite keys_world_w. destruct deltas_w as [-> _].
  apply moving_dTheta. pose proof angle_speed_pos. lra.
Qed.

Lemma moving_world_a : moving (dTheta_of (keys world_a)) (dPhi_of (keys world_a)) = true.
Proof.
  rewrite keys_world_a. destruct deltas_a as [_ ->].
  apply moving_dPhi. pose proof angle_speed_pos. lra.
Qed.

Lemma moving_init : moving (dTheta_of (keys init)) (dPhi_of (keys init)) = false.
Proof. rewrite keys_init. apply moving_empty. Qed.

Lemma init_eq : init = updateCamera (updateAlienPosition world0).
Proof.
  unfold init, animate.
  assert (handleInput world0 = world0) as ->.
  { unfold handleInput. change (keys world0) with (∅ : gmap string bool).
    rewrite moving_empty. unfold zoom. now rewrite !pressed_empty. }
  now rewrite (updateAlien_in_sync _ in_sync_world0).
Qed.

Lemma alien_init : alien init = alien world0.
Proof. rewrite init_eq. now rewrite alien_updateCamera. Qed.

Lemma theta_init : theta_of init = 0.
Proof. unfold theta_of. now rewrite alien_init. Qed.

Lemma phi_init : phi_of init = 0.
Proof. unfold phi_of. now rewrite alien_init. Qed.

Lemma cameraDistance_init : cameraDistance init = 200.
Proof. rewrite init_eq. now rewrite cameraDistance_updateCamera. Qed.


(** ** Runs of frames *)

Lemma run_frames_S (n : nat) (w : World) :
  run (repeat Frame (S n)) w = run (repeat Frame n) (animate w).
Proof. reflexivity. Qed.

Lemma keys_run_frames (n : nat) (w : World) :
  keys (run (repeat Frame n) w) = keys w.
Proof.
  revert w. induction n as [|n IH]; intros w; [reflexivity|].
  now rewrite run_frames_S, IH, keys_animate.
Qed.

(** ** C7: the zoom distance *)

Lemma zoom_bounds (ks : gmap string bool) (d : R) :
  MIN_ZOOM <= d <= MAX_ZOOM ->
  MIN_ZOOM <= zoom ks d <= MAX_ZOOM /\ Rabs (zoom ks d - d) <= ZOOM_SPEED.
Proof.
  unfold zoom, MIN_ZOOM, MAX_ZOOM, ZOOM_SPEED, Rmin, Rmax, Rabs. intros H.
  destruct (pressed ks "o"), (pressed ks "p");
    repeat destruct Rle_dec; destruct Rcase_abs; lra.
Qed.

Lemma zoom_in_at_min (ks : gmap string bool) :
  pressed ks "o" = true -> pressed ks "p" = false ->
  zoom ks MIN_ZOOM = MIN_ZOOM.
Proof.
  intros Ho Hp. unfold zoom. rewrite Ho, Hp.
  unfold MIN_ZOOM, ZOOM_SPEED, Rmax. destruct Rle_dec; lra.
Qed.

Lemma reachable_zoom (w : World) :
  reachable w -> MIN_ZOOM <= cameraDistance w <= MAX_ZOOM.
Proof.
  revert w. apply reachable_ind.
  - rewrite cameraDistance_init. unfold MIN_ZOOM, MAX_ZOOM. lra.
  - intros w [e | e |] _ Hw; simpl.
    + now rewrite cameraDistance_keyPressed.
    + now rewrite cameraDistance_keyReleased.
    + rewrite cameraDistance_animate. now apply zoom_bounds.
Qed.

(** C7.  Along every run from the initial zoom distance, the zoom distance
    is within [[MIN_ZOOM, MAX_ZOOM]] and the next event changes it by at most
    [ZOOM_SPEED]; and a tick with zoom-in held (and zoom-out not) at
    [MIN_ZOOM] leaves it at [MIN_ZOOM]. *)
Theorem zoom_stays_in_range (evs : list Event) :
  let w := run evs init in
  MIN_ZOOM <= cameraDistance w <= MAX_ZOOM /\
  (forall ev, Rabs (cameraDistance (step w ev) - cameraDistance w) <= ZOOM_SPEED) /\
  (cameraDistance w = MIN_ZOOM ->
   pressed (keys w) "o" = true -> pressed (keys w) "p" = false ->
   cameraDistance (animate w) = MIN_ZOOM).
Proof.
  intros w.
  assert (Hw : MIN_ZOOM <= cameraDistance w <= MAX_ZOOM).
  { apply reachable_zoom. now exists evs. }
  split; [exact Hw|]. split.
  - intros [e | e |]; simpl.
    + rewrite cameraDistance_keyPressed, Rminus_diag, Rabs_R0.
      unfold ZOOM_SPEED. lra.
    + rewrite cameraDistance_keyReleased, Rminus_diag, Rabs_R0.
      unfold ZOOM_SPEED. lra.
    + rewrite cameraDistance_animate. now apply zoom_bounds.
  - intros Hmin Ho Hp. rewrite cameraDistance_animate, Hmin.
    now apply zoom_in_at_min.
Qed.

(** With zoom-in held, the distance goes down by the step until the floor. *)
Lemma zoom_in_frames (n : nat) (w : World) :
  pressed (keys w) "o" = true -> pressed (keys w) "p" = false ->
  MIN_ZOOM <= cameraDistance w ->
  cameraDistance (run (repeat Frame n) w) =
  Rmax MIN_ZOOM (cameraDistance w - INR n * ZOOM_SPEED).
Proof.
  revert w. induction n as [|n IH]; intros w Ho Hp Hmin.
  - simpl. unfold Rmax. destruct Rle_dec; lra.
  - rewrite run_frames_S, IH; rewrite ?keys_animate; try assumption.
    + rewrite cameraDistance_animate, S_INR. unfold zoom. rewrite Ho, Hp.
      unfold Rmax, ZOOM_SPEED, MIN_ZOOM in *.
      pose proof (pos_INR n).
      repeat destruct Rle_dec; nra.
    + rewrite cameraDistance_animate. unfold zoom. rewrite Ho, Hp.
      apply Rmax_l.
Qed.

Lemma zoomed_in_facts :
  cameraDistance (run zoomed_in_events init) = MIN_ZOOM /\
  pressed (keys (run zoomed_in_events init)) "o" = true /\
  pressed (keys (run zoomed_in_events init)) "p" = false.
Proof.
  unfold zoomed_in_events.
  change (run (KeyDown key_o :: repeat Frame 18) init)
    with (run (repeat Frame 18) (keyPressed key_o init)).
  assert (Hk : keys (keyPressed key_o init) = <["o" := true]> ∅).
  { unfold keyPressed; simpl. now rewrite keys_init. }
  assert (Ho : pressed (keys (keyPressed key_o init)) "o" = true).
  { rewrite Hk, pressed_insert. reflexivity. }
  assert (Hp : pressed (keys (keyPressed key_o init)) "p" = false).
  { rewrite Hk, pressed_insert, pressed_empty. reflexivity. }
  rewrite keys_run_frames. split; [|split; assumption].
  rewrite zoom_in_frames; try assumption.
  - rewrite cameraDistance_keyPressed, cameraDistance_init.
    replace (INR 18) with 18 by (rewrite INR_IZR_INZ; reflexivity).
    unfold Rmax, MIN_ZOOM, ZOOM_SPEED. destruct Rle_dec; lra.
  - rewrite cameraDistance_keyPressed, cameraDistance_init. unfold MIN_ZOOM. lra.
Qed.

Lemma zoom_stays_in_range_witness :
  cameraDistance (animate (run zoomed_in_events init)) = MIN_ZOOM.
Proof.
  destruct zoomed_in_facts as (Hmin & Ho & Hp).
  exact (proj2 (proj2 (zoom_stays_in_range zoomed_in_events)) Hmin Ho Hp).
Defined.

Lemma run_cons (ev : Event) (evs : list Event) (w : World) :
  run (ev :: evs) w = run evs (step w ev).
Proof. reflexivity. Qed.

(** ** C4: the polar angle *)

Lemma theta_handleInput_band (w : World) :
  in_band (theta_of w) -> in_band (theta_of (handleInput w)).
Proof.
  intros Hw. destruct (moving (dTheta_of (keys w)) (dPhi_of (keys w))) eqn:Hm.
  - rewrite theta_handleInput_moving by exact Hm.
    apply clamp_bounds. left. apply eps_lt_top.
  - unfold theta_of. now rewrite alien_handleInput_idle.
Qed.

Lemma theta_step_band (w : World) (ev : Event) :
  in_band (theta_of w) -> in_band (theta_of (step w ev)).
Proof.
  intros Hw. destruct ev as [e | e |]; simpl.
  - unfold theta_of. now rewrite alien_keyPressed.
  - unfold theta_of. now rewrite alien_keyReleased.
  - rewrite theta_animate. now apply theta_handleInput_band.
Qed.

Lemma theta_run_band (evs : list Event) (w : World) :
  in_band (theta_of w) -> in_band (theta_of (run evs w)).
Proof.
  revert w. induction evs as [|ev evs IH]; intros w Hw; [exact Hw|].
  rewrite run_cons. now apply IH, theta_step_band.
Qed.

(** C4.  On a tick where a directional key gives a nonzero delta the new
    polar angle is [clamp (theta + dTheta, 0.01, π - 0.01)]; from then on,
    whatever events follow, the polar angle stays in [[0.01, π - 0.01]] and
    so is neither 0 nor π. *)
Theorem polar_angle_clamped (w : World) (evs : list Event) :
  moving (dTheta_of (keys w)) (dPhi_of (keys w)) = true ->
  theta_of (animate w) =
  clamp (theta_of w + dTheta_of (keys w)) (1 / 100) (PI - 1 / 100) /\
  1 / 100 <= theta_of (run evs (animate w)) <= PI - 1 / 100 /\
  theta_of (run evs (animate w)) <> 0 /\
  theta_of (run evs (animate w)) <> PI.
Proof.
  intros Hm.
  assert (Hstep : theta_of (animate w) =
                  clamp (theta_of w + dTheta_of (keys w)) POLE_EPS (PI - POLE_EPS)).
  { rewrite theta_animate. now apply theta_handleInput_moving. }
  assert (Hband : in_band (theta_of (run evs (animate w)))).
  { apply theta_run_band. rewrite Hstep. apply clamp_bounds. left. apply eps_lt_top. }
  unfold in_band, POLE_EPS in *.
  split; [exact Hstep|]. split; [exact Hband|]. split; lra.
Qed.

Lemma polar_angle_clamped_witness :
  theta_of (animate world_s) =
  clamp (theta_of world_s + dTheta_of (keys world_s)) (1 / 100) (PI - 1 / 100) /\
  1 / 100 <= theta_of (run [Frame; KeyUp key_s; Frame] (animate world_s))
          <= PI - 1 / 100 /\
  theta_of (run [Frame; KeyUp key_s; Frame] (animate world_s)) <> 0 /\
  theta_of (run [Frame; KeyUp key_s; Frame] (animate world_s)) <> PI.
Proof.
  apply (polar_angle_clamped world_s [Frame; KeyUp key_s; Frame]), moving_world_s.
Defined.

(** Before the first directional delta the polar angle is the initial 0. *)
Lemma reachable_theta (w : World) :
  reachable w -> theta_of w = 0 \/ in_band (theta_of w).
Proof.
  revert w. apply reachable_ind.
  - left. apply theta_init.
  - intros w ev _ [H0 | Hb]; [|right; now apply theta_step_band].
    destruct ev as [e | e |]; simpl.
    + left. unfold theta_of. now rewrite alien_keyPressed.
    + left. unfold theta_of. now rewrite alien_keyReleased.
    + rewrite theta_animate.
      destruct (moving (dTheta_of (keys w)) (dPhi_of (keys w))) eqn:Hm.
      * right. rewrite theta_handleInput_moving by exact Hm.
        apply clamp_bounds. left. apply eps_lt_top.
      * left. unfold theta_of in *. now rewrite alien_handleInput_idle.
Qed.

(** ** C8: the pole scenario *)

Lemma theta_frames_idle (n : nat) (w : World) :
  moving (dTheta_of (keys w)) (dPhi_of (keys w)) = false ->
  theta_of (run (repeat Frame n) w) = theta_of w.
Proof.
  revert w. induction n as [|n IH]; intros w Hm; [reflexivity|].
  rewrite run_frames_S, IH by (now rewrite keys_animate).
  rewrite theta_animate. unfold theta_of. now rewrite alien_handleInput_idle.
Qed.

(** Holding the key that lowers the polar angle, from at most [POLE_EPS]:
    every frame yields [POLE_EPS]. *)
Lemma theta_frames_down (n : nat) (w : World) :
  dTheta_of (keys w) = - ANGLE_SPEED ->
  theta_of w <= POLE_EPS ->
  theta_of (run (repeat Frame (S n)) w) = POLE_EPS.
Proof.
  pose proof angle_speed_pos as Ha. pose proof eps_lt_top as He.
  assert (Hone : forall w, dTheta_of (keys w) = - ANGLE_SPEED ->
                           theta_of w <= POLE_EPS -> theta_of (animate w) = POLE_EPS).
  { intros v Hd Hv. rewrite theta_animate, theta_handleInput_moving.
    - rewrite Hd. unfold clamp, Rmin, Rmax. repeat destruct Rle_dec; lra.
    - apply moving_dTheta. lra. }
  revert w. induction n as [|n IH]; intros w Hd Hw.
  - now apply Hone.
  - rewrite run_frames_S. apply IH.
    + now rewrite keys_animate.
    + rewrite Hone by assumption. lra.
Qed.

(** Holding the key that raises the polar angle: it grows by [ANGLE_SPEED]
    a frame until the upper bound of the clamp. *)
Lemma theta_frames_up (n : nat) (w : World) :
  dTheta_of (keys w) = ANGLE_SPEED ->
  0 <= theta_of w <= PI - POLE_EPS ->
  theta_of (run (repeat Frame n) w) =
  Rmin (theta_of w + INR n * ANGLE_SPEED) (PI - POLE_EPS).
Proof.
  pose proof angle_speed_pos as Ha. pose proof eps_lt_top as He.
  revert w. induction n as [|n IH]; intros w Hd Hw.
  - simpl. unfold Rmin. destruct Rle_dec; lra.
  - assert (Hone : theta_of (animate w) =
                   Rmin (theta_of w + ANGLE_SPEED) (PI - POLE_EPS)).
    { rewrite theta_animate, theta_handleInput_moving.
      - rewrite Hd. unfold clamp, Rmin, Rmax, ANGLE_SPEED, POLE_EPS in *.
        repeat destruct Rle_dec; lra.
      - apply moving_dTheta. lra. }
    rewrite run_frames_S, IH.
    + rewrite Hone, S_INR. pose proof (pos_INR n).
      unfold Rmin. repeat destruct Rle_dec; nra.
    + now rewrite keys_animate.
    + rewrite Hone. unfold Rmin. destruct Rle_dec; lra.
Qed.

Lemma theta_world_w : theta_of world_w = 0.
Proof. unfold theta_of, world_w. rewrite alien_keyPressed. apply theta_init. Qed.

Lemma theta_world_s : theta_of world_s = 0.
Proof. unfold theta_of, world_s. rewrite alien_keyPressed. apply theta_init. Qed.

Lemma dTheta_world_w : dTheta_of (keys world_w) = - ANGLE_SPEED.
Proof. rewrite keys_world_w. apply deltas_w. Qed.

Lemma dTheta_world_s : dTheta_of (keys world_s) = ANGLE_SPEED.
Proof. rewrite keys_world_s. apply deltas_s. Qed.

Lemma theta_w_frames (n : nat) :
  theta_of (run (KeyDown key_w :: repeat Frame (S n)) init) = POLE_EPS.
Proof.
  rewrite run_cons. apply (theta_frames_down n world_w).
  - apply dTheta_world_w.
  - rewrite theta_world_w. unfold POLE_EPS. lra.
Qed.

Lemma theta_s_frames (n : nat) :
  theta_of (run (KeyDown key_s :: repeat Frame n) init) =
  Rmin (INR n * ANGLE_SPEED) (PI - POLE_EPS).
Proof.
  rewrite run_cons. change (step init (KeyDown key_s)) with world_s.
  rewrite theta_frames_up.
  - now rewrite theta_world_s, Rplus_0_l.
  - apply dTheta_world_s.
  - rewrite theta_world_s. pose proof eps_lt_top. unfold POLE_EPS in *. lra.
Qed.

Lemma INR_1000 : INR 1000 = 1000.
Proof. rewrite INR_IZR_INZ. reflexivity. Qed.

(** C8, as the claim states it, fails whichever key is read as forward.
    The start-up frame leaves the polar angle at 0.  With [w], the key that
    lowers the angle, the first tick gives [POLE_EPS] and so do all 1000:
    the angle is not at [PI - POLE_EPS].  With [s] the first tick gives
    [ANGLE_SPEED], not [POLE_EPS]. *)
Lemma pole_scenario_fails :
  theta_of init = 0 /\ ~ pole_scenario key_w /\ ~ pole_scenario key_s.
Proof.
  pose proof eps_lt_top as He.
  split; [apply theta_init|]. split; intros [H1 H2].
  - rewrite (theta_w_frames 999) in H2. lra.
  - change [KeyDown key_s; Frame] with (KeyDown key_s :: repeat Frame 1) in H1.
    rewrite theta_s_frames in H1. simpl in H1.
    unfold Rmin, ANGLE_SPEED, POLE_EPS in *. destruct Rle_dec; lra.
Qed.

(** ** C1: the azimuth *)

(** What the code keeps: the azimuth is within one turn of 0 on either side. *)
Lemma reachable_phi (w : World) :
  reachable w -> - (PI * 2) < phi_of w < PI * 2.
Proof.
  pose proof PI_RGT_0 as Hpi.
  revert w. apply reachable_ind.
  - rewrite phi_init. lra.
  - intros w [e | e |] _ Hw; simpl.
    + unfold phi_of in *. now rewrite alien_keyPressed.
    + unfold phi_of in *. now rewrite alien_keyReleased.
    + rewrite phi_animate.
      destruct (moving (dTheta_of (keys w)) (dPhi_of (keys w))) eqn:Hm.
      * rewrite phi_handleInput_moving by exact Hm.
        destruct (js_rem_range (phi_of w + dPhi_of (keys w)) (PI * 2)) as [Hp Hn];
          [lra|].
        destruct (Rle_dec 0 (phi_of w + dPhi_of (keys w))) as [H0 | H0].
        -- specialize (Hp H0). lra.
        -- assert (H0' : phi_of w + dPhi_of (keys w) <= 0) by lra.
           specialize (Hn H0'). lra.
      * unfold phi_of in *. now rewrite alien_handleInput_idle.
Qed.

(** C1, the code at the failing input: from the start, with [a] held, one
    frame stores the azimuth [- ANGLE_SPEED], which is negative and so
    outside [[0, 2π)]. *)
Theorem azimuth_negative_after_left :
  phi_of (run [KeyDown key_a; Frame] init) = - ANGLE_SPEED /\
  phi_of (run [KeyDown key_a; Frame] init) < 0 /\
  ~ (0 <= phi_of (run [KeyDown key_a; Frame] init) < PI * 2).
Proof.
  pose proof angle_speed_pos as Ha. pose proof PI_gt_3 as Hpi.
  assert (H : phi_of (run [KeyDown key_a; Frame] init) = - ANGLE_SPEED).
  { change (run [KeyDown key_a; Frame] init) with (animate world_a).
    rewrite phi_animate, phi_handleInput_moving by apply moving_world_a.
    assert (phi_of world_a = 0) as ->.
    { unfold phi_of, world_a. rewrite alien_keyPressed. apply phi_init. }
    rewrite keys_world_a. destruct deltas_a as [_ ->].
    rewrite Rplus_0_l. apply js_rem_small; unfold ANGLE_SPEED in *; lra. }
  rewrite H. split; [reflexivity|]. split; lra.
Qed.

(** ** C9 and the camera *)

Lemma nonzero_length (v : Vector3) : v <> CENTER_AXIS -> Vector3.length v <> 0.
Proof. intros Hv Hl. apply Hv. now apply length_zero_iff. Qed.


(** C9.  When the alien's position is the center, [updateCamera] returns
    the world it was given: the camera keeps its position and its look
    target.  The function is total, so there is nothing to surface. *)
Theorem camera_unchanged_at_center (w : World) :
  pos_of w = CENTER_AXIS ->
  updateCamera w = w /\
  cam_position (camera (updateCamera w)) = cam_position (camera w) /\
  cam_lookTarget (camera (updateCamera w)) = cam_lookTarget (camera w).
Proof.
  intros Hp.
  assert (H : updateCamera w = w).
  { apply updateCamera_zero. now apply length_zero_iff. }
  rewrite H. auto.
Qed.

Lemma camera_unchanged_at_center_witness :
  updateCamera centered_world = centered_world /\
  cam_position (camera (updateCamera centered_world)) =
  cam_position (camera centered_world) /\
  cam_lookTarget (camera (updateCamera centered_world)) =
  cam_lookTarget (camera centered_world).
Proof. apply (camera_unchanged_at_center centered_world). reflexivity. Defined.




(** * Further properties of the script *)

(** ** Keyboard handlers *)

Lemma keys_keyPressed (e : KeyboardEvent) (w : World) :
  keys (keyPressed e w) = <[key_name e := true]> (keys w).
Proof. unfold keyPressed, key_name. now destruct String.eqb. Qed.

Lemma keys_keyReleased (e : KeyboardEvent) (w : World) :
  keys (keyReleased e w) = <[key_name e := false]> (keys w).
Proof. unfold keyReleased, key_name. now destruct String.eqb. Qed.

Lemma alienGroup_keyPressed (e : KeyboardEvent) (w : World) :
  alienGroup_position (keyPressed e w) = alienGroup_position w.
Proof. unfold keyPressed. now destruct String.eqb. Qed.

Lemma alienGroup_keyReleased (e : KeyboardEvent) (w : World) :
  alienGroup_position (keyReleased e w) = alienGroup_position w.
Proof. unfold keyReleased. now destruct String.eqb. Qed.

Lemma lower_ascii_idempotent (c : ascii) :
  lower_ascii (lower_ascii c) = lower_ascii c.
Proof. destruct c as [[] [] [] [] [] [] [] []]; reflexivity. Qed.

Lemma toLowerCase_idempotent (s : string) :
  toLowerCase (toLowerCase s) = toLowerCase s.
Proof.
  induction s as [|c s IH]; [reflexivity|].
  simpl. now rewrite lower_ascii_idempotent, IH.
Qed.

(** X1.  A key-down records the key as held and the key-up of the same
    event records it as not held; neither changes what [keys] says about
    any other name. *)
Theorem key_down_up_round_trip (e : KeyboardEvent) (w : World) :
  pressed (keys (keyPressed e w)) (key_name e) = true /\
  pressed (keys (keyReleased e (keyPressed e w))) (key_name e) = false /\
  (forall k, k <> key_name e ->
     pressed (keys (keyPressed e w)) k = pressed (keys w) k /\
     pressed (keys (keyReleased e w)) k = pressed (keys w) k).
Proof.
  split; [|split].
  - rewrite keys_keyPressed, pressed_insert. now rewrite decide_True.
  - rewrite keys_keyReleased, pressed_insert. now rewrite decide_True.
  - intros k Hk. rewrite keys_keyPressed, keys_keyReleased, !pressed_insert.
    rewrite !decide_False by congruence. auto.
Qed.

Lemma key_down_up_round_trip_witness :
  pressed (keys (keyPressed key_w init)) "s" = pressed (keys init) "s" /\
  pressed (keys (keyReleased key_w init)) "s" = pressed (keys init) "s".
Proof.
  apply (proj2 (proj2 (key_down_up_round_trip key_w init)) "s").
  vm_compute. discriminate.
Defined.

(** X2.  The handlers read the key through [toLowerCase]: an event and the
    same event with its key already in lower case have the same effect, so
    [W] typed with shift drives the alien like [w]. *)
Theorem key_case_is_ignored (e : KeyboardEvent) (w : World) :
  keyPressed (mkKeyboardEvent (code e) (toLowerCase (key e))) w = keyPressed e w /\
  keyReleased (mkKeyboardEvent (code e) (toLowerCase (key e))) w = keyReleased e w /\
  keyPressed key_W_shift w = keyPressed key_w w /\
  keyReleased key_W_shift w = keyReleased key_w w.
Proof.
  unfold keyPressed, keyReleased; simpl.
  rewrite toLowerCase_idempotent. auto.
Qed.

(** X3.  Key events only write [keys]: a run without frames leaves the
    alien, the zoom distance, the camera and the mesh as they were.  Frames
    only read [keys]: a held key stays held over any number of frames. *)
Theorem events_and_frames_are_separate (evs : list Event) (w : World) :
  (Forall (fun ev => ev <> Frame) evs ->
   alien (run evs w) = alien w /\
   cameraDistance (run evs w) = cameraDistance w /\
   camera (run evs w) = camera w /\
   alienGroup_position (run evs w) = alienGroup_position w) /\
  (forall n, keys (run (repeat Frame n) w) = keys w).
Proof.
  split; [|intros n; apply keys_run_frames].
  revert w. induction evs as [|ev evs IH]; intros w Hevs; [auto|].
  inversion Hevs as [|? ? Hev Hrest]; subst.
  rewrite run_cons. destruct (IH (step w ev) Hrest) as (-> & -> & -> & ->).
  destruct ev as [e | e |]; simpl; [| |congruence].
  - now rewrite alien_keyPressed, cameraDistance_keyPressed, camera_keyPressed,
      alienGroup_keyPressed.
  - now rewrite alien_keyReleased, cameraDistance_keyReleased, camera_keyReleased,
      alienGroup_keyReleased.
Qed.

Lemma events_and_frames_are_separate_witness :
  alien (run [KeyDown key_w; KeyUp key_w] init) = alien init /\
  cameraDistance (run [KeyDown key_w; KeyUp key_w] init) = cameraDistance init /\
  camera (run [KeyDown key_w; KeyUp key_w] init) = camera init /\
  alienGroup_position (run [KeyDown key_w; KeyUp key_w] init) =
  alienGroup_position init.
Proof.
  apply (proj1 (events_and_frames_are_separate [KeyDown key_w; KeyUp key_w] init)).
  repeat constructor; discriminate.
Defined.

(** ** handleInput: the guard *)

Lemma dTheta_zero_iff (ks : gmap string bool) :
  is_zero (dTheta_of ks) = Bool.eqb (pressed ks "w") (pressed ks "s").
Proof.
  pose proof angle_speed_pos as Ha. unfold dTheta_of.
  destruct (pressed ks "w"), (pressed ks "s"); simpl.
  - apply is_zero_true. lra.
  - apply is_zero_false. lra.
  - apply is_zero_false. lra.
  - apply is_zero_true. lra.
Qed.

Lemma dPhi_zero_iff (ks : gmap string bool) :
  is_zero (dPhi_of ks) = Bool.eqb (pressed ks "a") (pressed ks "d").
Proof.
  pose proof angle_speed_pos as Ha. unfold dPhi_of.
  destruct (pressed ks "a"), (pressed ks "d"); simpl.
  - apply is_zero_true. lra.
  - apply is_zero_false. lra.
  - apply is_zero_false. lra.
  - apply is_zero_true. lra.
Qed.

(** X4.  The guard of [handleInput] holds exactly when [w] and [s], or [a]
    and [d], are not in the same state.  Opposite keys held together cancel:
    with both pairs balanced the alien is not touched at all, the polar
    clamp included. *)
Theorem guard_is_key_imbalance (w : World) :
  moving (dTheta_of (keys w)) (dPhi_of (keys w)) =
  (negb (Bool.eqb (pressed (keys w) "w") (pressed (keys w) "s")) ||
   negb (Bool.eqb (pressed (keys w) "a") (pressed (keys w) "d")))%bool /\
  (pressed (keys w) "w" = pressed (keys w) "s" ->
   pressed (keys w) "a" = pressed (keys w) "d" ->
   alien (handleInput w) = alien w).
Proof.
  assert (H : moving (dTheta_of (keys w)) (dPhi_of (keys w)) =
              (negb (Bool.eqb (pressed (keys w) "w") (pressed (keys w) "s")) ||
               negb (Bool.eqb (pressed (keys w) "a") (pressed (keys w) "d")))%bool).
  { unfold moving. now rewrite dTheta_zero_iff, dPhi_zero_iff. }
  split; [exact H|].
  intros Hws Had. apply alien_handleInput_idle.
  rewrite H, Hws, Had, !Bool.eqb_reflx. reflexivity.
Qed.

Lemma guard_is_key_imbalance_witness :
  alien (handleInput (keyPressed key_s world_w)) = alien (keyPressed key_s world_w).
Proof.
  assert (Hk : keys (keyPressed key_s world_w) = <["s" := true]> (<["w" := true]> ∅)).
  { rewrite keys_keyPressed, keys_world_w. reflexivity. }
  apply (proj2 (guard_is_key_imbalance (keyPressed key_s world_w)));
    rewrite Hk, !pressed_insert, ?pressed_empty; reflexivity.
Defined.

(** ** The mesh *)

Lemma alienGroup_animate (w : World) :
  alienGroup_position (animate w) = pos_of (animate w).
Proof.
  rewrite pos_animate. unfold animate, updateCamera, Vector3.clone.
  destruct is_zero; reflexivity.
Qed.

Lemma reachable_mesh (w : World) :
  reachable w -> alienGroup_position w = pos_of w.
Proof.
  revert w. apply reachable_ind.
  - apply alienGroup_animate.
  - intros w [e | e |] _ Hw; simpl.
    + unfold pos_of. now rewrite alienGroup_keyPressed, alien_keyPressed.
    + unfold pos_of. now rewrite alienGroup_keyReleased, alien_keyReleased.
    + apply alienGroup_animate.
Qed.

(** ** updateCamera applied twice *)

(** X8.  [updateCamera] is idempotent and reads only the alien's position
    and the zoom distance: a second call places the camera where the first
    one did. *)
Theorem updateCamera_idempotent (w : World) :
  updateCamera (updateCamera w) = updateCamera w.
Proof.
  destruct (is_zero (Vector3.length (pos_of w))) eqn:Hz.
  - apply is_zero_true in Hz. now rewrite !(updateCamera_zero w Hz).
  - unfold updateCamera, Vector3.clone, Vector3.copy. fold (pos_of w).
    rewrite Hz. simpl. fold (pos_of w). now rewrite Hz.
Qed.

(** ** The azimuth wrap *)

(** X9.  When the azimuth is in [[0, 2π)] and the delta of the tick is not
    negative ([a] not held alone), the azimuth after the frame is again in
    [[0, 2π)]: the wrap is right for rightward turns. *)
Theorem azimuth_in_range_when_not_decreasing (w : World) :
  0 <= phi_of w < PI * 2 ->
  0 <= dPhi_of (keys w) ->
  0 <= phi_of (animate w) < PI * 2.
Proof.
  intros Hphi Hd. pose proof PI_RGT_0 as Hpi. rewrite phi_animate.
  destruct (moving (dTheta_of (keys w)) (dPhi_of (keys w))) eqn:Hm.
  - rewrite phi_handleInput_moving by exact Hm.
    apply js_rem_range; lra.
  - unfold phi_of in *. now rewrite alien_handleInput_idle.
Qed.

Lemma keys_world_d : keys world_d = <["d" := true]> ∅.
Proof. unfold world_d. rewrite keys_keyPressed, keys_init. reflexivity. Qed.

Lemma deltas_d : dTheta_of (<["d" := true]> ∅) = 0 /\
                 dPhi_of (<["d" := true]> ∅) = ANGLE_SPEED.
Proof.
  unfold dTheta_of, dPhi_of. rewrite !pressed_insert, !pressed_empty; simpl.
  split; ring.
Qed.

Lemma phi_world_d : phi_of world_d = 0.
Proof. unfold phi_of, world_d. rewrite alien_keyPressed. apply phi_init. Qed.

Lemma azimuth_in_range_when_not_decreasing_witness :
  0 <= phi_of (animate world_d) < PI * 2.
Proof.
  apply (azimuth_in_range_when_not_decreasing world_d).
  - rewrite phi_world_d. pose proof PI_RGT_0. lra.
  - rewrite keys_world_d. destruct deltas_d as [_ ->].
    pose proof angle_speed_pos. lra.
Defined.

(** ** Zoom over several frames *)

Lemma zoom_out_frames (n : nat) (w : World) :
  pressed (keys w) "o" = false -> pressed (keys w) "p" = true ->
  cameraDistance w <= MAX_ZOOM ->
  cameraDistance (run (repeat Frame n) w) =
  Rmin MAX_ZOOM (cameraDistance w + INR n * ZOOM_SPEED).
Proof.
  revert w. induction n as [|n IH]; intros w Ho Hp Hmax.
  - simpl. unfold Rmin. destruct Rle_dec; lra.
  - rewrite run_frames_S, IH; rewrite ?keys_animate; try assumption.
    + rewrite cameraDistance_animate, S_INR. unfold zoom. rewrite Ho, Hp.
      unfold Rmin, ZOOM_SPEED, MAX_ZOOM in *.
      pose proof (pos_INR n).
      repeat destruct Rle_dec; nra.
    + rewrite cameraDistance_animate. unfold zoom. rewrite Ho, Hp.
      apply Rmin_l.
Qed.

(** X12.  With only zoom-in held for [n] frames the zoom distance is
    [max (MIN_ZOOM, d - n * ZOOM_SPEED)]; with only zoom-out held it is
    [min (MAX_ZOOM, d + n * ZOOM_SPEED)]: it moves by the step each frame
    and stops at the bound. *)
Theorem zoom_over_frames (n : nat) (w : World) :
  (pressed (keys w) "o" = true -> pressed (keys w) "p" = false ->
   MIN_ZOOM <= cameraDistance w ->
   cameraDistance (run (repeat Frame n) w) =
   Rmax MIN_ZOOM (cameraDistance w - INR n * ZOOM_SPEED)) /\
  (pressed (keys w) "o" = false -> pressed (keys w) "p" = true ->
   cameraDistance w <= MAX_ZOOM ->
   cameraDistance (run (repeat Frame n) w) =
   Rmin MAX_ZOOM (cameraDistance w + INR n * ZOOM_SPEED)).
Proof. split; [apply zoom_in_frames | apply zoom_out_frames]. Qed.

Lemma zoom_over_frames_witness :
  cameraDistance (run (repeat Frame 3) world_o) =
  Rmax MIN_ZOOM (cameraDistance world_o - INR 3 * ZOOM_SPEED) /\
  cameraDistance (run (repeat Frame 40) world_p) =
  Rmin MAX_ZOOM (cameraDistance world_p + INR 40 * ZOOM_SPEED).
Proof.
  assert (Ho : keys world_o = <["o" := true]> ∅).
  { unfold world_o. rewrite keys_keyPressed, keys_init. reflexivity. }
  assert (Hp : keys world_p = <["p" := true]> ∅).
  { unfold world_p. rewrite keys_keyPressed, keys_init. reflexivity. }
  split.
  - apply (proj1 (zoom_over_frames 3 world_o)).
    + rewrite Ho, pressed_insert. reflexivity.
    + rewrite Ho, pressed_insert, pressed_empty. reflexivity.
    + unfold world_o. rewrite cameraDistance_keyPressed, cameraDistance_init.
      unfold MIN_ZOOM. lra.
  - apply (proj2 (zoom_over_frames 40 world_p)).
    + rewrite Hp, pressed_insert, pressed_empty. reflexivity.
    + rewrite Hp, pressed_insert. reflexivity.
    + unfold world_p. rewrite cameraDistance_keyPressed, cameraDistance_init.
      unfold MAX_ZOOM. lra.
Defined.

(** ** The two angles *)

Lemma reachable_world_moved : reachable world_moved.
Proof. now exists [KeyDown key_s; Frame; KeyUp key_s]. Qed.

Lemma theta_world_moved : theta_of world_moved = ANGLE_SPEED.
Proof.
  unfold world_moved.
  change (run [KeyDown key_s; Frame; KeyUp key_s] init)
    with (keyReleased key_s (run (KeyDown key_s :: repeat Frame 1) init)).
  unfold theta_of. rewrite alien_keyReleased. fold (theta_of (run (KeyDown key_s :: repeat Frame 1) init)).
  rewrite theta_s_frames. simpl. pose proof PI_gt_3.
  unfold Rmin, ANGLE_SPEED, POLE_EPS. destruct Rle_dec; lra.
Qed.

Lemma in_band_world_moved : in_band (theta_of world_moved).
Proof.
  rewrite theta_world_moved. pose proof PI_gt_3.
  unfold in_band, ANGLE_SPEED, POLE_EPS. lra.
Qed.

Lemma keys_world_moved : keys world_moved = <["s" := false]> (<["s" := true]> ∅).
Proof.
  unfold world_moved.
  change (run [KeyDown key_s; Frame; KeyUp key_s] init)
    with (keyReleased key_s (animate world_s)).
  rewrite keys_keyReleased, keys_animate, keys_world_s. reflexivity.
Qed.

Lemma deltas_world_moved :
  dTheta_of (keys world_moved) = 0 /\ dPhi_of (keys world_moved) = 0.
Proof.
  rewrite keys_world_moved. unfold dTheta_of, dPhi_of.
  rewrite !pressed_insert, !pressed_empty; simpl. split; reflexivity.
Qed.

(** ** Differences of scaled vectors *)


(** ** generateStars *)

(** A turn of the loop takes the state after [n] turns to the state after
    [n + 1]. *)
Lemma push_star_closed (rnd : nat -> R) (n : nat) :
  push_star rnd (star_state rnd n) = star_state rnd (S n).
Proof.
  unfold star_state.
  unfold push_star; cbn [drawn starPositions stars].
  set (c := star_coordinate rnd).
  set (sp := map c (seq 0 (3 * n))).
  assert (Hlen : length sp = (3 * n)%nat).
  { unfold sp. now rewrite List.length_map, List.length_seq. }
  assert (Hsp : sp ++ [c (3 * n)%nat; c (3 * n + 1)%nat; c (3 * n + 2)%nat] =
                map c (seq 0 (3 * S n))).
  { replace (3 * S n)%nat with (3 * n + 3)%nat by lia.
    rewrite seq_app, map_app. fold sp. f_equal. cbn [seq map].
    repeat (f_equal; try lia). }
  assert (Hl3 : length (sp ++ [c (3 * n)%nat; c (3 * n + 1)%nat; c (3 * n + 2)%nat]) =
                (3 * n + 3)%nat).
  { rewrite length_app, Hlen. reflexivity. }
  assert (Hidx : forall k, (k < 3)%nat ->
            js_index (sp ++ [c (3 * n)%nat; c (3 * n + 1)%nat; c (3 * n + 2)%nat])
                     (Z.of_nat (3 * n + 3) - 3 + Z.of_nat k) =
            [c (3 * n)%nat; c (3 * n + 1)%nat; c (3 * n + 2)%nat] !! k).
  { intros k Hk. unfold js_index.
    destruct (Z.ltb_spec (Z.of_nat (3 * n + 3) - 3 + Z.of_nat k) 0) as [Hneg | _];
      [lia|].
    replace (Z.to_nat (Z.of_nat (3 * n + 3) - 3 + Z.of_nat k))
      with (length sp + k)%nat by lia.
    rewrite lookup_app_r by lia. f_equal. lia. }
  rewrite Hl3.
  replace (Z.of_nat (3 * n + 3) - 3)%Z
    with (Z.of_nat (3 * n + 3) - 3 + Z.of_nat 0)%Z by lia.
  replace (Z.of_nat (3 * n + 3) - 2)%Z
    with (Z.of_nat (3 * n + 3) - 3 + Z.of_nat 1)%Z by lia.
  replace (Z.of_nat (3 * n + 3) - 1)%Z
    with (Z.of_nat (3 * n + 3) - 3 + Z.of_nat 2)%Z by lia.
  rewrite !Hidx by lia. cbn [lookup list_lookup].
  rewrite Hsp. f_equal.
  - rewrite seq_S, map_app. reflexivity.
  - lia.
Qed.

Lemma star_loop_closed (rnd : nat -> R) (m n : nat) :
  star_loop rnd m (star_state rnd n) = star_state rnd (n + m).
Proof.
  revert n. induction m as [|m IH]; intros n.
  - now rewrite Nat.add_0_r.
  - simpl. rewrite push_star_closed, IH. f_equal. lia.
Qed.

Lemma generateStars_closed (rnd : nat -> R) :
  generateStars rnd = star_state rnd 200.
Proof. apply (star_loop_closed rnd 200 0). Qed.

Lemma lookup_list_map {A B : Type} (f : A -> B) (l : list A) (i : nat) :
  map f l !! i = option_map f (l !! i).
Proof.
  revert i. induction l as [|a l IH]; intros [|i]; try reflexivity.
  apply IH.
Qed.

Lemma star_coordinate_range (rnd : nat -> R) (k : nat) :
  0 <= rnd k < 1 -> -2000 <= star_coordinate rnd k < 2000.
Proof. unfold star_coordinate. lra. Qed.

(** X16.  Whatever numbers in [[0, 1)] [Math.random] returns,
    [generateStars] draws 600 of them and leaves 200 stars and a buffer of
    600 coordinates, every coordinate in [[-2000, 2000)]; star [j] has no
    undefined field and its coordinates are the buffer entries [3 j],
    [3 j + 1] and [3 j + 2]. *)
Theorem generateStars_fills_the_sky (rnd : nat -> R) :
  (forall k, 0 <= rnd k < 1) ->
  let g := generateStars rnd in
  length (stars g) = 200%nat /\
  length (starPositions g) = 600%nat /\
  drawn g = 600%nat /\
  (forall i v, starPositions g !! i = Some v -> -2000 <= v < 2000) /\
  (forall j s, stars g !! j = Some s ->
     exists a b c,
       s = Star.mk (Some a) (Some b) (Some c) /\
       starPositions g !! (3 * j)%nat = Some a /\
       starPositions g !! (3 * j + 1)%nat = Some b /\
       starPositions g !! (3 * j + 2)%nat = Some c).
Proof.
  intros Hrnd g. unfold g. rewrite generateStars_closed.
  unfold star_state; cbn [stars starPositions drawn].
  rewrite !List.length_map, !List.length_seq.
  split; [reflexivity|]. split; [reflexivity|]. split; [reflexivity|]. split.
  - intros i v Hi. rewrite lookup_list_map in Hi.
    destruct (seq 0 (3 * 200) !! i) as [k|]; [|discriminate].
    injection Hi as <-. apply star_coordinate_range, Hrnd.
  - intros j s Hj. rewrite lookup_list_map in Hj.
    destruct (seq 0 200 !! j) as [k|] eqn:Hk; [|discriminate].
    apply lookup_seq in Hk as [-> Hlt]. injection Hj as <-.
    exists (star_coordinate rnd (3 * j)), (star_coordinate rnd (3 * j + 1)),
           (star_coordinate rnd (3 * j + 2)).
    split; [reflexivity|].
    rewrite !lookup_list_map, !lookup_seq_lt by lia. auto.
Qed.

Lemma generateStars_fills_the_sky_witness :
  length (stars (generateStars (fun _ => 1 / 2))) = 200%nat /\
  length (starPositions (generateStars (fun _ => 1 / 2))) = 600%nat.
Proof.
  assert (H : forall k : nat, 0 <= (fun _ : nat => 1 / 2) k < 1) by (intros; lra).
  destruct (generateStars_fills_the_sky (fun _ => 1 / 2) H) as (Hs & Hp & _).
  split; [exact Hs | exact Hp].
Defined.

(** ** Leaving the pole *)

(** X17.  From the polar angle 0 of the start, the first tick that passes
    the guard without raising the polar angle (a sideways key alone, or
    [w]) stores [POLE_EPS]: the alien leaves the pole although the polar
    delta is not positive, and its position becomes the projection of
    [POLE_EPS] and the new azimuth. *)
Theorem first_move_leaves_the_pole (w : World) :
  theta_of w = 0 ->
  moving (dTheta_of (keys w)) (dPhi_of (keys w)) = true ->
  dTheta_of (keys w) <= 0 ->
  theta_of (animate w) = POLE_EPS /\
  pos_of (animate w) = project ALIEN_DISTANCE POLE_EPS (phi_of (animate w)).
Proof.
  intros Ht Hm Hd. pose proof eps_lt_top as He.
  assert (Hth : theta_of (handleInput w) = POLE_EPS).
  { rewrite theta_handleInput_moving, Ht by exact Hm.
    unfold clamp, Rmin, Rmax, POLE_EPS in *. repeat destruct Rle_dec; lra. }
  assert (Hs : in_sync (handleInput w)) by now apply pos_handleInput_moving.
  rewrite theta_animate, phi_animate, pos_animate, updateAlien_in_sync by exact Hs.
  split; [exact Hth|]. unfold in_sync in Hs. now rewrite Hs, Hth.
Qed.

Lemma first_move_leaves_the_pole_witness :
  theta_of (animate world_a) = POLE_EPS /\
  pos_of (animate world_a) = project ALIEN_DISTANCE POLE_EPS (phi_of (animate world_a)).
Proof.
  apply (first_move_leaves_the_pole world_a).
  - unfold theta_of, world_a. rewrite alien_keyPressed. apply theta_init.
  - apply moving_world_a.
  - rewrite keys_world_a. destruct deltas_a as [-> _]. lra.
Defined.

(** * The claims that turn on rounding *)

(** ** Evaluation in doubles *)

Section DoubleRuns.

Import PrimFloat.

(** After the first frame with [s] held the stored position is the
    reprojection (rescaling it changes no bit here), and its length is
    1009.9999999999999. *)
Lemma double_first_s_frame :
  Double.updateAlien Double.pos_s1 = Double.pos_s1 /\
  Double.length (Double.updateAlien Double.pos_s1) = 0x1.f8fffffffffffp+9%float.
Proof. split; vm_compute; reflexivity. Qed.

End DoubleRuns.

(** ** Where the runs of the double evaluation lead *)

Lemma alien_world_s : alien world_s = alien init.
Proof. unfold world_s. apply alien_keyPressed. Qed.

Lemma theta_first_s_frame : theta_of (animate world_s) = ANGLE_SPEED.
Proof.
  pose proof PI_gt_3 as Hpi.
  rewrite theta_animate, theta_handleInput_moving by apply moving_world_s.
  rewrite theta_world_s, dTheta_world_s.
  unfold clamp, Rmin, Rmax, ANGLE_SPEED, POLE_EPS. repeat destruct Rle_dec; lra.
Qed.




Lemma reachable_world_drifted : reachable world_drifted.
Proof. now exists [KeyDown key_s; Frame; Frame; KeyUp key_s]. Qed.

Lemma theta_world_drifted : theta_of world_drifted = 4 / 100.
Proof.
  unfold world_drifted.
  change (run [KeyDown key_s; Frame; Frame; KeyUp key_s] init)
    with (keyReleased key_s (run (KeyDown key_s :: repeat Frame 2) init)).
  unfold theta_of. rewrite alien_keyReleased.
  fold (theta_of (run (KeyDown key_s :: repeat Frame 2) init)).
  rewrite theta_s_frames. simpl. pose proof PI_gt_3.
  unfold Rmin, ANGLE_SPEED, POLE_EPS. destruct Rle_dec; lra.
Qed.

Lemma phi_world_drifted : phi_of world_drifted = 0.
Proof.
  assert (Hstep : forall w, phi_of w = 0 -> dPhi_of (keys w) = 0 ->
                            phi_of (animate w) = 0).
  { intros w Hw Hd. rewrite phi_animate.
    destruct (moving (dTheta_of (keys w)) (dPhi_of (keys w))) eqn:Hm.
    - rewrite phi_handleInput_moving, Hw, Hd by exact Hm.
      rewrite Rplus_0_r. apply js_rem_small; pose proof PI_RGT_0; lra.
    - unfold phi_of in *. now rewrite alien_handleInput_idle. }
  assert (Hd : dPhi_of (keys world_s) = 0).
  { rewrite keys_world_s. apply deltas_s. }
  unfold world_drifted.
  change (run [KeyDown key_s; Frame; Frame; KeyUp key_s] init)
    with (keyReleased key_s (animate (animate world_s))).
  unfold phi_of. rewrite alien_keyReleased. fold (phi_of (animate (animate world_s))).
  apply Hstep; [|now rewrite keys_animate].
  apply Hstep; [|exact Hd].
  unfold phi_of. rewrite alien_world_s. apply phi_init.
Qed.

Lemma keys_world_drifted :
  keys world_drifted = <["s" := false]> (<["s" := true]> ∅).
Proof.
  unfold world_drifted.
  change (run [KeyDown key_s; Frame; Frame; KeyUp key_s] init)
    with (keyReleased key_s (animate (animate world_s))).
  rewrite keys_keyReleased, !keys_animate, keys_world_s. reflexivity.
Qed.

Lemma moving_world_drifted :
  moving (dTheta_of (keys world_drifted)) (dPhi_of (keys world_drifted)) = false.
Proof.
  rewrite keys_world_drifted. apply moving_idle.
  - unfold dTheta_of. rewrite !pressed_insert, !pressed_empty; reflexivity.
  - unfold dPhi_of. rewrite !pressed_insert, !pressed_empty; reflexivity.
Qed.

Lemma keys_world_ws :
  keys world_ws =
  <["s" := true]> (<["w" := false]> (<["w" := true]> (<["o" := true]> ∅))).
Proof.
  unfold world_ws.
  change (run [KeyDown key_o; KeyDown key_w; Frame; KeyUp key_w; KeyDown key_s; Frame] init)
    with (animate (keyPressed key_s (keyReleased key_w
            (animate (keyPressed key_w (keyPressed key_o init)))))).
  rewrite keys_animate, keys_keyPressed, keys_keyReleased, keys_animate,
    !keys_keyPressed, keys_init.
  reflexivity.
Qed.



Section DoubleCounterexamples.

Import PrimFloat.




(** C5, as the claim states it, fails.  After two frames with [s] held
    and its release, theta is 0.04 and phi is 0, and no key is held: on the
    next tick the guard of [handleInput] is false and the alien is handed
    on as stored.  The stored position is not the projection of the stored
    angles: the rescaling of the second frame moved the last bit of z, from
    40.389227528500506 to 40.389227528500513. *)
Lemma idle_tick_uses_stored_position :
  (reachable world_drifted /\
   theta_of world_drifted = (4 / 100)%R /\
   phi_of world_drifted = 0%R) /\
  moving (dTheta_of (keys world_drifted)) (dPhi_of (keys world_drifted)) = false /\
  alien (handleInput world_drifted) = alien world_drifted /\
  Double.updateAlien Double.pos_s2 =
  Double.mk 0 0x1.f89896fc6ba62p+9 0x1.431d23528ce6ap+5 /\
  Double.pos_s2 =
  Double.mk 0 0x1.f89896fc6ba62p+9 0x1.431d23528ce69p+5 /\
  Double.updateAlien Double.pos_s2 <> Double.pos_s2.
Proof.
  split; [|split; [|split; [|split; [|split]]]].
  - split; [apply reachable_world_drifted|].
    split; [apply theta_world_drifted | apply phi_world_drifted].
  - apply moving_world_drifted.
  - apply alien_handleInput_idle, moving_world_drifted.
  - vm_compute. reflexivity.
  - vm_compute. reflexivity.
  - intro E. apply (f_equal (fun v => PrimFloat.eqb (Double.z v) (Double.z Double.pos_s2))) in E.
    vm_compute in E. discriminate.
Qed.

End DoubleCounterexamples.

(** ** The rescale and the camera placement, component by component *)





Lemma reachable_length (w : World) :
  reachable w -> Vector3.length (pos_of w) = ALIEN_DISTANCE.
Proof. intros Hw. now apply in_sync_length, reachable_in_sync. Qed.


(** ** C2: the alien is kept at its radius *)



(** ** C3 and C10: the camera *)





(** ** C5 and C6: the reprojection *)

Lemma pos_updateAlien_alien (w1 w2 : World) :
  alien w1 = alien w2 -> pos_of (updateAlien w1) = pos_of (updateAlien w2).
Proof.
  intros H. unfold pos_of, updateAlien. rewrite H.
  destruct (is_zero (Vector3.length (position (alien w2)))); simpl;
    rewrite ?H; reflexivity.
Qed.

(** C5, amended.  On a tick where a directional key gives a nonzero delta,
    [handleInput] recomputes the position from the new angular pair.  On a
    tick with no such delta it leaves the angles and the stored position as
    they are, and the position after the tick is what [updateAlien] makes
    of the stored one. *)
Theorem position_recomputed_when_moving (w : World) :
  (moving (dTheta_of (keys w)) (dPhi_of (keys w)) = true ->
   pos_of (handleInput w) =
   project ALIEN_DISTANCE (theta_of (handleInput w)) (phi_of (handleInput w))) /\
  (moving (dTheta_of (keys w)) (dPhi_of (keys w)) = false ->
   alien (handleInput w) = alien w /\
   pos_of (animate w) = pos_of (updateAlien w)).
Proof.
  split.
  - apply pos_handleInput_moving.
  - intros Hm. split; [now apply alien_handleInput_idle|].
    rewrite pos_animate. now apply pos_updateAlien_alien, alien_handleInput_idle.
Qed.

Lemma position_recomputed_when_moving_witness :
  pos_of (handleInput world_s) =
  project ALIEN_DISTANCE (theta_of (handleInput world_s))
          (phi_of (handleInput world_s)) /\
  alien (handleInput world_drifted) = alien world_drifted /\
  pos_of (animate world_drifted) = pos_of (updateAlien world_drifted).
Proof.
  split.
  - apply (proj1 (position_recomputed_when_moving world_s)), moving_world_s.
  - apply (proj2 (position_recomputed_when_moving world_drifted)),
      moving_world_drifted.
Defined.

(** C6.  When [handleInput] reprojects the alien (a directional key gave a
    nonzero delta), the position it stores is
    [(r sin θ sin φ, r cos θ, r sin θ cos φ)] for [r = ALIEN_DISTANCE], [θ]
    the clamped new polar angle and [φ] the wrapped new azimuth, which are
    the angles it stores. *)
Theorem reprojection_formula (w : World) :
  moving (dTheta_of (keys w)) (dPhi_of (keys w)) = true ->
  let r := ALIEN_DISTANCE in
  let th := clamp (theta_of w + dTheta_of (keys w)) (1 / 100) (PI - 1 / 100) in
  let ph := js_rem (phi_of w + dPhi_of (keys w)) (PI * 2) in
  pos_of (handleInput w) =
  Vector3.mk (r * sin th * sin ph) (r * cos th) (r * sin th * cos ph) /\
  theta_of (handleInput w) = th /\
  phi_of (handleInput w) = ph.
Proof.
  intros Hm r th ph.
  assert (Hth : theta_of (handleInput w) = th) by now apply theta_handleInput_moving.
  assert (Hph : phi_of (handleInput w) = ph) by now apply phi_handleInput_moving.
  split; [|split; assumption].
  rewrite pos_handleInput_moving, Hth, Hph by exact Hm. reflexivity.
Qed.

Lemma reprojection_formula_witness :
  pos_of (handleInput world_s) =
  Vector3.mk
    (ALIEN_DISTANCE
     * sin (clamp (theta_of world_s + dTheta_of (keys world_s)) (1 / 100) (PI - 1 / 100))
     * sin (js_rem (phi_of world_s + dPhi_of (keys world_s)) (PI * 2)))
    (ALIEN_DISTANCE
     * cos (clamp (theta_of world_s + dTheta_of (keys world_s)) (1 / 100) (PI - 1 / 100)))
    (ALIEN_DISTANCE
     * sin (clamp (theta_of world_s + dTheta_of (keys world_s)) (1 / 100) (PI - 1 / 100))
     * cos (js_rem (phi_of world_s + dPhi_of (keys world_s)) (PI * 2))).
Proof. apply (reprojection_formula world_s), moving_world_s. Defined.

(** ** C8: the pole scenario *)

Lemma theta_idle_run (evs : list Event) (w : World) :
  theta_of w = 0 -> idle_run evs w -> theta_of (run evs w) = 0.
Proof.
  revert w. induction evs as [|ev evs IH]; intros w Hw Hrun; [exact Hw|].
  destruct Hrun as [Hev Hrest]. rewrite run_cons. apply IH; [|exact Hrest].
  destruct ev as [e | e |]; simpl.
  - unfold theta_of in *. now rewrite alien_keyPressed.
  - unfold theta_of in *. now rewrite alien_keyReleased.
  - rewrite theta_animate. unfold theta_of in *.
    now rewrite alien_handleInput_idle by (now apply Hev).
Qed.

(** C8, amended.  From the polar angle 0 of the start: as long as no frame
    finds a directional delta, whatever key events come, the angle stays 0;
    with [w] held every tick yields [POLE_EPS], the first one included;
    with [s] held the first tick yields [ANGLE_SPEED], after 1000 ticks the
    angle is [PI - POLE_EPS], and it is never more than that. *)
Theorem pole_scenario_amended :
  (forall evs, idle_run evs init -> theta_of (run evs init) = 0) /\
  (forall n, theta_of (run (KeyDown key_w :: repeat Frame (S n)) init) = POLE_EPS) /\
  theta_of (run [KeyDown key_s; Frame] init) = ANGLE_SPEED /\
  theta_of (run (KeyDown key_s :: repeat Frame 1000) init) = PI - POLE_EPS /\
  (forall n, theta_of (run (KeyDown key_s :: repeat Frame n) init) <= PI - POLE_EPS).
Proof.
  split; [|split; [|split; [|split]]].
  - intros evs Hrun. apply theta_idle_run; [apply theta_init | exact Hrun].
  - apply theta_w_frames.
  - apply theta_first_s_frame.
  - rewrite theta_s_frames, INR_1000. pose proof PI_4.
    unfold Rmin, ANGLE_SPEED, POLE_EPS. destruct Rle_dec; lra.
  - intros n. rewrite theta_s_frames. apply Rmin_r.
Qed.

Lemma pole_scenario_amended_witness :
  theta_of (run [KeyDown key_o; Frame; KeyUp key_o; Frame] init) = 0.
Proof.
  apply (proj1 pole_scenario_amended).
  assert (Hidle : forall b : bool,
            moving (dTheta_of (<["o" := b]> ∅)) (dPhi_of (<["o" := b]> ∅)) = false).
  { intros b. apply moving_idle.
    - unfold dTheta_of. rewrite !pressed_insert, !pressed_empty; reflexivity.
    - unfold dPhi_of. rewrite !pressed_insert, !pressed_empty; reflexivity. }
  cbn [idle_run step]. repeat split; try discriminate.
  - intros _. rewrite keys_keyPressed, keys_init. apply Hidle.
  - intros _. rewrite keys_keyReleased, keys_animate, keys_keyPressed, keys_init.
    change (key_name key_o) with "o". rewrite insert_insert_eq. apply Hidle.
Defined.

(** * Further properties of the reachable worlds *)

(** X5.  The mesh shown for the alien is at the alien's position after
    every frame and in every world the program reaches, where it is above
    the planet's surface. *)
Theorem mesh_follows_alien (w : World) :
  alienGroup_position (animate w) = pos_of (animate w) /\
  (reachable w ->
   alienGroup_position w = pos_of w /\
   PLANET_RADIUS < Vector3.length (Vector3.sub (alienGroup_position w) CENTER_AXIS)).
Proof.
  split; [apply alienGroup_animate|].
  intros Hw. split; [now apply reachable_mesh|].
  unfold CENTER_AXIS. rewrite sub_zero, reachable_mesh, reachable_length by exact Hw.
  unfold ALIEN_DISTANCE, PLANET_RADIUS, BLOCK_SIZE. lra.
Qed.

Lemma mesh_follows_alien_witness :
  alienGroup_position init = pos_of init /\
  PLANET_RADIUS < Vector3.length (Vector3.sub (alienGroup_position init) CENTER_AXIS).
Proof. apply (proj2 (mesh_follows_alien init)), reachable_init. Defined.

(** X13.  In a world the program reaches, with the polar angle inside the
    clamp's band: a tick without polar delta keeps the polar angle, and a
    tick without azimuth delta keeps the azimuth. *)
Theorem angles_are_independent (w : World) :
  reachable w ->
  in_band (theta_of w) ->
  (dTheta_of (keys w) = 0 -> theta_of (animate w) = theta_of w) /\
  (dPhi_of (keys w) = 0 -> phi_of (animate w) = phi_of w).
Proof.
  intros Hr Hb. pose proof PI_RGT_0 as Hpi.
  pose proof (reachable_phi w Hr) as Hphi.
  rewrite theta_animate, phi_animate.
  destruct (moving (dTheta_of (keys w)) (dPhi_of (keys w))) eqn:Hm.
  - rewrite theta_handleInput_moving, phi_handleInput_moving by exact Hm.
    unfold in_band in Hb. split.
    + intros ->. unfold clamp, Rmin, Rmax. repeat destruct Rle_dec; lra.
    + intros ->. rewrite Rplus_0_r. apply js_rem_small; lra.
  - unfold theta_of, phi_of. rewrite alien_handleInput_idle by exact Hm.
    split; reflexivity.
Qed.

Lemma angles_are_independent_witness :
  theta_of (animate world_moved) = theta_of world_moved /\
  phi_of (animate world_moved) = phi_of world_moved.
Proof.
  destruct (angles_are_independent world_moved reachable_world_moved
              in_band_world_moved) as (Ht & Hp).
  destruct deltas_world_moved as [Hdt Hdp].
  split; [exact (Ht Hdt) | exact (Hp Hdp)].
Defined.

(** X14.  In a world the program reaches, once the polar angle is inside
    the clamp's band the alien is off the vertical axis and strictly
    between the two poles: [ALIEN_DISTANCE * sin theta] is positive, the
    height is less than [ALIEN_DISTANCE] in magnitude, and x and z are not
    both zero. *)
Theorem alien_stays_off_the_poles (w : World) :
  reachable w ->
  in_band (theta_of w) ->
  let p := pos_of w in
  0 < ALIEN_DISTANCE * sin (theta_of w) /\
  Rabs (Vector3.y p) < ALIEN_DISTANCE /\
  0 < Vector3.x p * Vector3.x p + Vector3.z p * Vector3.z p.
Proof.
  intros Hr Hb p. pose proof alien_distance_pos as Ha.
  pose proof (reachable_in_sync w Hr) as Hs. unfold in_sync in Hs.
  unfold p. rewrite Hs. unfold project; simpl.
  pose proof (sin2_cos2 (phi_of w)) as Hp. pose proof (sin2_cos2 (theta_of w)) as Ht.
  unfold Rsqr in Hp, Ht. unfold in_band, POLE_EPS in Hb.
  assert (Hsin : 0 < sin (theta_of w)) by (apply sin_gt_0; lra).
  assert (Hpos : 0 < ALIEN_DISTANCE * sin (theta_of w))
    by (apply Rmult_lt_0_compat; assumption).
  split; [exact Hpos|]. split.
  - assert (Hcos : -1 < cos (theta_of w) < 1) by (split; nra).
    unfold Rabs. destruct Rcase_abs; nra.
  - replace (ALIEN_DISTANCE * sin (theta_of w) * sin (phi_of w) *
             (ALIEN_DISTANCE * sin (theta_of w) * sin (phi_of w)) +
             ALIEN_DISTANCE * sin (theta_of w) * cos (phi_of w) *
             (ALIEN_DISTANCE * sin (theta_of w) * cos (phi_of w)))
      with (ALIEN_DISTANCE * sin (theta_of w) * (ALIEN_DISTANCE * sin (theta_of w)) *
            (sin (phi_of w) * sin (phi_of w) + cos (phi_of w) * cos (phi_of w)))
      by ring.
    rewrite Hp, Rmult_1_r. now apply Rmult_lt_0_compat.
Qed.

Lemma alien_stays_off_the_poles_witness :
  0 < ALIEN_DISTANCE * sin (theta_of world_moved) /\
  Rabs (Vector3.y (pos_of world_moved)) < ALIEN_DISTANCE /\
  0 < Vector3.x (pos_of world_moved) * Vector3.x (pos_of world_moved)
      + Vector3.z (pos_of world_moved) * Vector3.z (pos_of world_moved).
Proof.
  exact (alien_stays_off_the_poles world_moved reachable_world_moved
           in_band_world_moved).
Defined.


